(** * prefect/task.py: tasks, the task registry, dependency binding

    A shallow embedding of [src/prefect/task.py].  Python objects live in
    explicit stores (task objects, dict objects, flows), every method is a
    computation over the interpreter state [World], and a raised exception
    is a result of its own. *)

From Stdlib Require Import ZArith String Ascii List Lia.
From stdpp Require Import base option list gmap strings fin_maps pretty.

Open Scope string_scope.
Open Scope nat_scope.

(** ** Python values and object references *)

Definition tref := nat.   (* address of a task object *)
Definition dref := nat.   (* address of a dict object *)
Definition fref := nat.   (* address of a flow object *)

(** [datetime.timedelta], as a number of microseconds. *)
Inductive timedelta := Timedelta (microseconds : Z).

Definition timedelta_minutes (m : Z) : timedelta := Timedelta (m * 60000000).

(** A reference to a module-level function (a trigger). *)
Inductive fn_ref := FnRef (qualname : string).

Inductive pyval :=
| PNone
| PBool (b : bool)
| PInt (z : Z)
| PStr (s : string)
| PTimedelta (d : timedelta)
| PFunction (f : fn_ref)
| PTask (r : tref).

#[global] Instance timedelta_eq_dec : EqDecision timedelta.
Proof. solve_decision. Defined.
#[global] Instance fn_ref_eq_dec : EqDecision fn_ref.
Proof. solve_decision. Defined.
#[global] Instance pyval_eq_dec : EqDecision pyval.
Proof. solve_decision. Defined.

(** What [Signature.bind] stores under a parameter name: the argument, the
    tuple taken by a [*args] parameter, or the dict taken by [**kwargs]. *)
Inductive bound :=
| BArg (v : pyval)
| BTuple (vs : list pyval)
| BKwargs (kw : gmap string pyval).

(** ** Exceptions *)

Inductive type_error :=
| MissingArgument (name : string)      (* missing a required argument *)
| TooManyPositional                   (* too many positional arguments *)
| MultipleValues (name : string)       (* multiple values for argument *)
| UnexpectedKeyword                   (* got an unexpected keyword argument *)
| NotAMapping.                        (* dict.update with a non-mapping *)

Inductive exn :=
| TypeError (why : type_error)
| ValueError (msg : string)
| KeyError (key : string)
| NotImplementedError
| FAIL (msg : string).                (* prefect.signals.FAIL *)

(** The failure the specification calls a binding error is the [TypeError]
    that [inspect.Signature.bind] raises. *)
Definition is_binding_error (e : exn) : bool :=
  match e with
  | TypeError (MissingArgument _ | TooManyPositional
               | MultipleValues _ | UnexpectedKeyword) => true
  | _ => false
  end.

(** ** Strings *)

(** [s[:n]]: the first [n] characters, all of [s] when it is shorter. *)
Fixpoint slice_to (n : nat) (s : string) : string :=
  match n, s with
  | S n', String c s' => String c (slice_to n' s')
  | _, _ => EmptyString
  end.

Definition dquote : string := String (ascii_of_nat 34) EmptyString.

(** [needle in haystack] *)
Definition str_contains (haystack needle : string) : Prop :=
  ∃ pre post, haystack = pre +:+ needle +:+ post.

(** ** inspect: signatures and argument binding

    The parameter kinds are the four a [def] of the source's Python can
    declare; positional-only parameters exist there only for builtins, and
    [run] is a method written in Python. *)

Module Inspect.

Inductive kind :=
| POSITIONAL_OR_KEYWORD
| VAR_POSITIONAL
| KEYWORD_ONLY
| VAR_KEYWORD.

#[global] Instance kind_eq_dec : EqDecision kind.
Proof. solve_decision. Defined.

(** A declared parameter; [p_default] tells whether a default value was
    declared ([param.default is not _empty]). *)
Record param := Param {
  p_name : string;
  p_kind : kind;
  p_default : bool
}.

(** [inspect.signature] of a bound method: the declared parameters
    without the first one, which receives the instance. *)
Definition signature_bound_method (params : list param) : exn + list param :=
  match params with
  | [] => inl (ValueError "invalid method signature")
  | p :: ps =>
      match p_kind p with
      | VAR_KEYWORD | KEYWORD_ONLY => inl (ValueError "invalid method signature")
      | POSITIONAL_OR_KEYWORD => inr ps
      | VAR_POSITIONAL => inr params
      end
  end.

(** First loop of [Signature._bind]: positional arguments against the
    parameters in order.  Returns the arguments bound so far and the
    parameters left for the keyword loop ([parameters_ex] followed by
    what the iterator has not yielded). *)
Fixpoint bind_positional (params : list param) (args : list pyval)
    (kwargs : gmap string pyval) (arguments : gmap string bound)
    {struct params} : type_error + (gmap string bound * list param) :=
  match params, args with
  | [], [] => inr (arguments, [])
  | p :: rest, [] =>
      match p_kind p with
      | VAR_POSITIONAL => inr (arguments, rest)
      | k =>
          if decide (is_Some (kwargs !! p_name p)) then inr (arguments, p :: rest)
          else if decide (k = VAR_KEYWORD) then inr (arguments, p :: rest)
          else if p_default p then inr (arguments, p :: rest)
          else inl (MissingArgument (p_name p))
      end
  | [], _ :: _ => inl TooManyPositional
  | p :: rest, a :: args' =>
      match p_kind p with
      | VAR_KEYWORD | KEYWORD_ONLY => inl TooManyPositional
      | VAR_POSITIONAL => inr (<[p_name p := BTuple (a :: args')]> arguments, rest)
      | POSITIONAL_OR_KEYWORD =>
          if decide (is_Some (kwargs !! p_name p))
          then inl (MultipleValues (p_name p))
          else bind_positional rest args' kwargs (<[p_name p := BArg a]> arguments)
      end
  end.

(** Second loop: the remaining parameters against the keyword arguments;
    [kwargs.pop] removes each keyword that found its parameter. *)
Fixpoint bind_keywords (params : list param) (kwargs : gmap string pyval)
    (kwargs_param : option string) (arguments : gmap string bound)
    : type_error + (gmap string bound * gmap string pyval * option string) :=
  match params with
  | [] => inr (arguments, kwargs, kwargs_param)
  | p :: rest =>
      match p_kind p with
      | VAR_KEYWORD => bind_keywords rest kwargs (Some (p_name p)) arguments
      | VAR_POSITIONAL => bind_keywords rest kwargs kwargs_param arguments
      | _ =>
          match kwargs !! p_name p with
          | None =>
              if p_default p then bind_keywords rest kwargs kwargs_param arguments
              else inl (MissingArgument (p_name p))
          | Some v =>
              bind_keywords rest (delete (p_name p) kwargs) kwargs_param
                (<[p_name p := BArg v]> arguments)
          end
      end
  end.

(** The [arguments] of [Signature.bind], called with the positional
    arguments [args] and the keyword arguments [kwargs]. *)
Definition bind (sig : list param) (args : list pyval)
    (kwargs : gmap string pyval) : type_error + gmap string bound :=
  match bind_positional sig args kwargs ∅ with
  | inl e => inl e
  | inr (arguments, remaining) =>
      match bind_keywords remaining kwargs None arguments with
      | inl e => inl e
      | inr (arguments, kwargs, kwargs_param) =>
          if decide (kwargs = ∅) then inr arguments
          else match kwargs_param with
               | Some n => inr (<[n := BKwargs kwargs]> arguments)
               | None => inl UnexpectedKeyword
               end
      end
  end.

(** What a [def] accepts as a parameter list: the kinds in order
    (positional-or-keyword, [*args], keyword-only, [**kwargs]), at most
    one of each starred kind, no name twice. *)
Definition kind_rank (k : kind) : nat :=
  match k with
  | POSITIONAL_OR_KEYWORD => 0
  | VAR_POSITIONAL => 1
  | KEYWORD_ONLY => 2
  | VAR_KEYWORD => 3
  end.

Definition starred (k : kind) : bool :=
  match k with
  | VAR_POSITIONAL | VAR_KEYWORD => true
  | _ => false
  end.

Fixpoint kinds_ordered (params : list param) : bool :=
  match params with
  | p :: ((q :: _) as rest) =>
      (if starred (p_kind p)
       then Nat.ltb (kind_rank (p_kind p)) (kind_rank (p_kind q))
       else Nat.leb (kind_rank (p_kind p)) (kind_rank (p_kind q)))
      && kinds_ordered rest
  | _ => true
  end.

Definition wf_signature (params : list param) : Prop :=
  kinds_ordered params = true ∧ NoDup (p_name <$> params).

End Inspect.

Import Inspect.

(** ** Objects and the interpreter state *)

(** A task class: [type(self).__name__] and the parameters its [run] method
    declares, the instance parameter included. *)
Record TaskClass := {
  cls_name : string;
  cls_run : list param
}.

Definition self_param : param := Param "self" POSITIONAL_OR_KEYWORD false.

Definition Task_class : TaskClass :=
  {| cls_name := "Task"; cls_run := [self_param] |}.

Definition Parameter_class : TaskClass :=
  {| cls_name := "Parameter"; cls_run := [self_param] |}.

(** The two attributes only a [Parameter] instance has. *)
Record ParameterAttrs := {
  required : bool;
  default_value : pyval
}.

(** The attributes of a task instance (its [__dict__]). *)
Record TaskObj := {
  cls : TaskClass;
  _id : string;
  name : string;
  description : option string;
  max_retries : Z;
  retry_delay : timedelta;
  timeout : option timedelta;
  trigger : fn_ref;
  secrets : dref;
  _prefect_version : string;
  param_attrs : option ParameterAttrs
}.

Definition with_id (value : string) (t : TaskObj) : TaskObj :=
  {| cls := cls t; _id := value; name := name t; description := description t;
     max_retries := max_retries t; retry_delay := retry_delay t;
     timeout := timeout t; trigger := trigger t; secrets := secrets t;
     _prefect_version := _prefect_version t; param_attrs := param_attrs t |}.

(** An edge of a flow: from [edge_source] to the task [edge_target],
    labelled with the parameter name [edge_key]. *)
Record Edge := {
  edge_source : bound;
  edge_target : tref;
  edge_key : string
}.

Record Flow := {
  flow_tasks : gset tref;
  flow_edges : list Edge
}.

Definition empty_flow : Flow := {| flow_tasks := ∅; flow_edges := [] |}.

(** [prefect.context.Context]: the ambient flow and runtime parameters. *)
Record Context := {
  ctx_flow : option fref;
  ctx_parameters : option (gmap string pyval)
}.

(** The interpreter state.  [TASK_REGISTRY] is a [WeakValueDictionary]: an
    entry disappears once its task is unreachable.  Collection is not
    modelled; every task a statement below talks about is still referenced
    by its caller, so its entries are live. *)
Record World := {
  heap : gmap tref TaskObj;
  TASK_REGISTRY : gmap string tref;
  dicts : gmap dref (gmap string pyval);
  flows : gmap fref Flow;
  context : Context;
  uuid_counter : nat;
  prefect_version : string
}.

Definition set_heap (h : gmap tref TaskObj) (w : World) : World :=
  {| heap := h; TASK_REGISTRY := TASK_REGISTRY w; dicts := dicts w;
     flows := flows w; context := context w; uuid_counter := uuid_counter w;
     prefect_version := prefect_version w |}.

Definition set_registry (reg : gmap string tref) (w : World) : World :=
  {| heap := heap w; TASK_REGISTRY := reg; dicts := dicts w;
     flows := flows w; context := context w; uuid_counter := uuid_counter w;
     prefect_version := prefect_version w |}.

Definition set_dicts (ds : gmap dref (gmap string pyval)) (w : World) : World :=
  {| heap := heap w; TASK_REGISTRY := TASK_REGISTRY w; dicts := ds;
     flows := flows w; context := context w; uuid_counter := uuid_counter w;
     prefect_version := prefect_version w |}.

Definition set_flows (fs : gmap fref Flow) (w : World) : World :=
  {| heap := heap w; TASK_REGISTRY := TASK_REGISTRY w; dicts := dicts w;
     flows := fs; context := context w; uuid_counter := uuid_counter w;
     prefect_version := prefect_version w |}.

Definition set_uuid_counter (n : nat) (w : World) : World :=
  {| heap := heap w; TASK_REGISTRY := TASK_REGISTRY w; dicts := dicts w;
     flows := flows w; context := context w; uuid_counter := n;
     prefect_version := prefect_version w |}.

(** ** Computations: state, exceptions *)

(** A computation returns, raises, or is [Stuck] when the state is not one
    a Python program can be in (a reference to no object, an attribute of
    another type than the model gives it). *)
Inductive Res (A : Type) :=
| Ret (a : A) (w : World)
| Raise (e : exn) (w : World)
| Stuck.
Arguments Ret {A}.
Arguments Raise {A}.
Arguments Stuck {A}.

Definition M (A : Type) : Type := World → Res A.

#[global] Instance M_ret : MRet M := λ A a w, Ret a w.
#[global] Instance M_bind : MBind M := λ A B f m w,
  match m w with
  | Ret a w' => f a w'
  | Raise e w' => Raise e w'
  | Stuck => Stuck
  end.

Definition raise {A} (e : exn) : M A := λ w, Raise e w.
Definition stuck {A} : M A := λ _, Stuck.
Definition modify (f : World → World) : M unit := λ w, Ret () (f w).

Definition lift {A} (r : exn + A) : M A :=
  match r with inl e => raise e | inr a => mret a end.

Definition lift_type_error {A} (r : type_error + A) : M A :=
  match r with inl e => raise (TypeError e) | inr a => mret a end.

Definition get_task (r : tref) : M TaskObj := λ w,
  match heap w !! r with Some t => Ret t w | None => Stuck end.

Definition set_task (r : tref) (t : TaskObj) : M unit :=
  modify (λ w, set_heap (<[r := t]> (heap w)) w).

(** The address of the next task object. *)
Definition new_tref : M tref := λ w, Ret (fresh (dom (heap w))) w.

(** The literal [{}]. *)
Definition new_dict : M dref := λ w,
  let d := fresh (dom (dicts w)) in Ret d (set_dicts (<[d := ∅]> (dicts w)) w).

(** [Context.get('flow')], [None] when no flow is being built. *)
Definition Context_get_flow : M (option fref) := λ w, Ret (ctx_flow (context w)) w.

(** [Context.get('parameters', {})] *)
Definition Context_get_parameters : M (gmap string pyval) := λ w,
  Ret (default ∅ (ctx_parameters (context w))) w.

(** ** Collaborators outside task.py *)

(** Modelled from the spec: [prefect.flow.Flow] is not among the sources.
    [Flow()] is a new, empty flow; [add_task] adds a node and does nothing
    for a node already present; [set_dependencies] adds the task as a node,
    one edge per entry of the binding map, labelled with the entry's name,
    and returns the flow's handle for the task. *)
Definition Flow_new : M fref := λ w,
  let f := fresh (dom (flows w)) in
  Ret f (set_flows (<[f := empty_flow]> (flows w)) w).

Definition Flow_add_task (flow : fref) (task : tref) : M unit := λ w,
  match flows w !! flow with
  | Some fl =>
      Ret () (set_flows (<[flow := {| flow_tasks := {[task]} ∪ flow_tasks fl;
                                      flow_edges := flow_edges fl |}]> (flows w)) w)
  | None => Stuck
  end.

Record TaskResult := {
  tr_task : tref;
  tr_flow : fref
}.

Definition binding_edges (task : tref) (keyword_results : gmap string bound)
    : list Edge :=
  (λ kv, {| edge_source := kv.2; edge_target := task; edge_key := kv.1 |})
    <$> map_to_list keyword_results.

Definition add_dependencies (task : tref) (keyword_results : gmap string bound)
    (fl : Flow) : Flow :=
  {| flow_tasks := {[task]} ∪ flow_tasks fl;
     flow_edges := flow_edges fl ++ binding_edges task keyword_results |}.

Definition Flow_set_dependencies (flow : fref) (task : tref)
    (keyword_results : gmap string bound) : M TaskResult := λ w,
  match flows w !! flow with
  | Some fl =>
      Ret {| tr_task := task; tr_flow := flow |}
          (set_flows (<[flow := add_dependencies task keyword_results fl]>
                        (flows w)) w)
  | None => Stuck
  end.

(** Modelled from the spec: [prefect.utilities.functions.get_var_kw_arg] is
    not among the sources.  It names the variable-keyword capture parameter
    of the work function, [None] when there is none. *)
Definition get_var_kw_arg (sig : list param) : option string :=
  p_name <$> List.find (λ p, bool_decide (p_kind p = VAR_KEYWORD)) sig.

(** [prefect.triggers.all_successful] *)
Definition all_successful : fn_ref := FnRef "prefect.triggers.all_successful".

(** ** task.py *)

(** The arguments of [Task.__init__]. *)
Record InitArgs := {
  arg_name : option string;
  arg_id : option string;
  arg_description : option string;
  arg_max_retries : Z;
  arg_retry_delay : timedelta;
  arg_timeout : option timedelta;
  arg_trigger : option fn_ref;
  arg_secrets : option dref
}.

(** The declared defaults. *)
Definition no_args : InitArgs :=
  {| arg_name := None; arg_id := None; arg_description := None;
     arg_max_retries := 0; arg_retry_delay := timedelta_minutes 1;
     arg_timeout := None; arg_trigger := None; arg_secrets := None |}.


Definition with_arg_name (n : option string) (a : InitArgs) : InitArgs :=
  {| arg_name := n; arg_id := arg_id a; arg_description := arg_description a;
     arg_max_retries := arg_max_retries a; arg_retry_delay := arg_retry_delay a;
     arg_timeout := arg_timeout a; arg_trigger := arg_trigger a;
     arg_secrets := arg_secrets a |}.

(** [name or type(self).__name__] *)
Definition name_or (n : option string) (fallback : string) : string :=
  match n with
  | Some (String c s) => String c s
  | _ => fallback
  end.

(** [secrets or {}]: a missing or empty argument gives a new dict. *)
Definition secrets_or_new (arg : option dref) : M dref := λ w,
  match arg with
  | None => new_dict w
  | Some d =>
      match dicts w !! d with
      | Some m => if decide (m = ∅) then new_dict w else Ret d w
      | None => Stuck
      end
  end.

Definition opt_str (o : option string) : pyval :=
  match o with Some s => PStr s | None => PNone end.

Definition opt_timedelta (o : option timedelta) : pyval :=
  match o with Some d => PTimedelta d | None => PNone end.

(** [Parameter.run]'s message,
    ['Parameter "{}" was required but not provided.'.format(name)]. *)
Definition required_message (n : string) : string :=
  "Parameter " +:+ dquote +:+ n +:+ dquote +:+ " was required but not provided.".

Section Task.

(** [prefect.utilities.ids.generate_uuid] is not among the sources: the
    [n]-th identifier it issues is [uuid_of n]. *)
Variable uuid_of : nat → string.

(** [super().serialize()]: what [Serializable] contributes for a task. *)
Variable Serializable_serialize : TaskObj → gmap string pyval.

Definition generate_uuid : M string := λ w,
  Ret (uuid_of (uuid_counter w)) (set_uuid_counter (S (uuid_counter w)) w).

(** [TASK_REGISTRY[self.id] = self] *)
Definition Task_register (self : tref) : M unit :=
  t ← get_task self;
  modify (λ w, set_registry (<[_id t := self]> (TASK_REGISTRY w)) w).

(** The [id] property and its setter. *)
Definition Task_id (self : tref) : M string :=
  t ← get_task self; mret (_id t).

Definition Task_id_set (self : tref) (value : string) : M unit :=
  t ← get_task self;
  set_task self (with_id value t);;
  Task_register self.

Definition Task_short_id (self : tref) : M string :=
  t ← get_task self; mret (slice_to 8 (_id t)).

(** [__setstate__]: [self.__dict__.update(state)], then registration. *)
Definition Task_setstate (self : tref) (state : TaskObj) : M unit :=
  set_task self state;;
  Task_register self.

(** [copy.copy(self)]: a bare instance of the same class receives the
    original's [__dict__] through [__setstate__]; the attribute values are
    not duplicated. *)
Definition copy_copy (self : tref) : M tref :=
  state ← get_task self;
  new ← new_tref;
  Task_setstate new state;;
  mret new.

Definition Task_copy (self : tref) : M tref :=
  new ← copy_copy self;
  u ← generate_uuid;
  Task_id_set new u;;
  Task_register new;;
  mret new.

(** [Task.__init__] on a new instance of class [c]; [attrs] are the
    attributes a subclass constructor has set before calling it.  The
    instance is stored once all its attributes are computed. *)
Definition Task_init (c : TaskClass) (attrs : option ParameterAttrs)
    (a : InitArgs) : M tref :=
  self ← new_tref;
  u ← generate_uuid;
  s ← secrets_or_new (arg_secrets a);
  version ← (λ w, Ret (prefect_version w) w);
  set_task self
    {| cls := c; _id := u;
       name := name_or (arg_name a) (cls_name c);
       description := arg_description a;
       max_retries := arg_max_retries a;
       retry_delay := arg_retry_delay a;
       timeout := arg_timeout a;
       trigger := default all_successful (arg_trigger a);
       secrets := s;
       _prefect_version := version;
       param_attrs := attrs |};;
  Task_register self;;            (* by the [id] setter *)
  Task_register self;;            (* [self.register()] *)
  flow ← Context_get_flow;
  match flow with
  | Some f => Flow_add_task f self
  | None => mret ()
  end;;
  mret self.

(** [inspect.signature(self.run)] *)
Definition run_signature (t : TaskObj) : M (list param) :=
  lift (signature_bound_method (cls_run (cls t))).

Definition Task_inputs (self : tref) : M (list string) :=
  t ← get_task self;
  sig ← run_signature t;
  mret (p_name <$> sig).


(** [callargs.update(callargs.pop(var_kw_arg, {}))] *)
Definition expand_var_kw (var_kw_arg : option string)
    (callargs : gmap string bound) : type_error + gmap string bound :=
  match var_kw_arg with
  | None => inr callargs
  | Some n =>
      match callargs !! n with
      | None => inr callargs
      | Some (BKwargs kw) => inr ((BArg <$> kw) ∪ delete n callargs)
      | Some _ => inl NotAMapping
      end
  end.

(** Lines 116-118: the ambient flow, or a new one. *)
Definition call_flow : M fref :=
  flow ← Context_get_flow;
  match flow with
  | None => Flow_new
  | Some f => mret f
  end.

(** [Task.__call__], declared [__call__(self, *args, **kwargs)]: a keyword
    named [self] meets the instance parameter, which already has its value,
    and the call raises before the body runs. *)
Definition Task_call (self : tref) (args : list pyval)
    (kwargs : gmap string pyval) : M TaskResult :=
  if decide (is_Some (kwargs !! "self"))
  then raise (TypeError (MultipleValues "self"))
  else
  t ← get_task self;
  signature ← run_signature t;
  callargs ← lift_type_error (bind signature args kwargs);
  callargs ← lift_type_error (expand_var_kw (get_var_kw_arg signature) callargs);
  flow ← call_flow;
  Flow_set_dependencies flow self callargs.

(** [serialized.update(name=self.name, ..., prefect_version=...)] *)
Definition update_task_fields (t : TaskObj) (serialized : gmap string pyval)
    : gmap string pyval :=
  <["name" := PStr (name t)]>
  (<["id" := PStr (_id t)]>
  (<["description" := opt_str (description t)]>
  (<["max_retries" := PInt (max_retries t)]>
  (<["retry_delay" := PTimedelta (retry_delay t)]>
  (<["timeout" := opt_timedelta (timeout t)]>
  (<["trigger" := PFunction (trigger t)]>
  (<["type" := PStr (cls_name (cls t))]>
  (<["prefect_version" := PStr (_prefect_version t)]> serialized)))))))).

Definition Task_serialize (self : tref) : M (gmap string pyval) :=
  t ← get_task self;
  let serialized := Serializable_serialize t in
  mret (update_task_fields t serialized).

Definition Task_after_deserialize (self : tref)
    (serialized : gmap string pyval) : M unit :=
  match serialized !! "id" with
  | None => raise (KeyError "id")
  | Some (PStr value) =>
      Task_id_set self value;;
      Task_register self
  | Some _ => stuck
  end.

Definition Parameter_init (name : string) (default : pyval)
    (required : bool) : M tref :=
  let required := if decide (default = PNone) then required else false in
  Task_init Parameter_class
    (Some {| required := required; default_value := default |})
    (with_arg_name (Some name) no_args).

Definition Parameter_run (self : tref) : M pyval :=
  t ← get_task self;
  match param_attrs t with
  | None => stuck
  | Some attrs =>
      params ← Context_get_parameters;
      if required attrs && negb (bool_decide (is_Some (params !! name t)))
      then raise (FAIL (required_message (name t)))
      else mret (default (default_value attrs) (params !! name t))
  end.

(** Modelled from the spec: [Serializable.deserialize] is not among the
    sources.  It reconstructs a task of the variant named by [type] with
    the mapping's configuration; like every construction this draws an
    identifier and registers the task.  Then the [after_deserialize] hook
    of task.py sets the identifier from the mapping. *)
Definition find_variant (variants : list TaskClass) (ty : string)
    : option TaskClass :=
  List.find (λ c, bool_decide (cls_name c = ty)) variants.

Definition as_opt_str (v : pyval) : option (option string) :=
  match v with PNone => Some None | PStr s => Some (Some s) | _ => None end.

Definition as_opt_timedelta (v : pyval) : option (option timedelta) :=
  match v with
  | PNone => Some None
  | PTimedelta d => Some (Some d)
  | _ => None
  end.

Definition variant_attrs (c : TaskClass) : option ParameterAttrs :=
  if decide (cls_name c = "Parameter")
  then Some {| required := true; default_value := PNone |}
  else None.

Definition reconstruct (variants : list TaskClass)
    (serialized : gmap string pyval) : M tref :=
  match serialized !! "type", serialized !! "name",
        serialized !! "description" ≫= as_opt_str,
        serialized !! "max_retries", serialized !! "retry_delay",
        serialized !! "timeout" ≫= as_opt_timedelta,
        serialized !! "trigger" with
  | Some (PStr ty), Some (PStr n), Some d, Some (PInt mr),
    Some (PTimedelta rd), Some tmo, Some (PFunction tr) =>
      match find_variant variants ty with
      | None => stuck
      | Some c =>
          self ← new_tref;
          u ← generate_uuid;
          s ← new_dict;
          version ← (λ w, Ret (prefect_version w) w);
          set_task self
            {| cls := c; _id := u; name := n; description := d;
               max_retries := mr; retry_delay := rd; timeout := tmo;
               trigger := tr; secrets := s; _prefect_version := version;
               param_attrs := variant_attrs c |};;
          Task_register self;;
          mret self
      end
  | _, _, _, _, _, _, _ => stuck
  end.

Definition deserialize (variants : list TaskClass)
    (serialized : gmap string pyval) : M tref :=
  self ← reconstruct variants serialized;
  Task_after_deserialize self serialized;;
  mret self.

End Task.

(** ** Calls that cannot be bound *)

(** A required parameter (not starred, no default) takes no positional
    argument and no keyword carries its name. *)
Definition missing_required (sig : list param) (args : list pyval)
    (kwargs : gmap string pyval) : Prop :=
  ∃ (i : nat) p, sig !! i = Some p
    ∧ starred (p_kind p) = false ∧ p_default p = false
    ∧ ¬ (p_kind p = POSITIONAL_OR_KEYWORD ∧ i < length args)
    ∧ kwargs !! p_name p = None.

(** A parameter takes a positional argument and a keyword carries its name
    as well. *)
Definition duplicate_binding (sig : list param) (args : list pyval)
    (kwargs : gmap string pyval) : Prop :=
  ∃ (i : nat) p, sig !! i = Some p
    ∧ p_kind p = POSITIONAL_OR_KEYWORD ∧ i < length args
    ∧ is_Some (kwargs !! p_name p).

(** A keyword names no parameter and there is no capture parameter. *)
Definition unrecognized_keyword (sig : list param)
    (kwargs : gmap string pyval) : Prop :=
  get_var_kw_arg sig = None
  ∧ ∃ k, is_Some (kwargs !! k)
       ∧ ∀ p, p ∈ sig → starred (p_kind p) = false → p_name p ≠ k.

Definition unbindable (sig : list param) (args : list pyval)
    (kwargs : gmap string pyval) : Prop :=
  missing_required sig args kwargs
  ∨ duplicate_binding sig args kwargs
  ∨ unrecognized_keyword sig kwargs.

(** The entries accumulated under the capture parameter [n]. *)
Definition captured (n : string) (callargs : gmap string bound)
    : gmap string pyval :=
  match callargs !! n with
  | Some (BKwargs kw) => kw
  | _ => ∅
  end.

(** The flow a call resolved has become the ambient flow. *)
Definition made_ambient (w : World) : Prop :=
  ∃ f w', call_flow w = Ret f w' ∧ ctx_flow (context w') = Some f.

(** The work function of the object at [self] is rebound to one declared
    with the parameters [run]. *)
Definition with_run (run : list param) (t : TaskObj) : TaskObj :=
  {| cls := {| cls_name := cls_name (cls t); cls_run := run |};
     _id := _id t; name := name t; description := description t;
     max_retries := max_retries t; retry_delay := retry_delay t;
     timeout := timeout t; trigger := trigger t; secrets := secrets t;
     _prefect_version := _prefect_version t; param_attrs := param_attrs t |}.

(** ** States a program can be in *)

(** The [secrets] argument refers to a dict. *)
Definition args_ok (a : InitArgs) (w : World) : Prop :=
  ∀ d, arg_secrets a = Some d → is_Some (dicts w !! d).

(** The ambient flow, if there is one, refers to a flow. *)
Definition ambient_flow_ok (w : World) : Prop :=
  ∀ f, ctx_flow (context w) = Some f → is_Some (flows w !! f).

(** No task carries an identifier that [generate_uuid] has yet to issue. *)
Definition ids_issued (uuid_of : nat → string) (w : World) : Prop :=
  ∀ (r : tref) t (k : nat),
    heap w !! r = Some t → uuid_counter w ≤ k → _id t ≠ uuid_of k.

(** ** Keys of a serialized task *)

(** The keys [Task.serialize] writes. *)
Definition task_keys : gset string :=
  list_to_set ["name"; "id"; "description"; "max_retries"; "retry_delay";
               "timeout"; "trigger"; "type"; "prefect_version"].

(** The keys the specification lists. *)
Definition spec_keys : gset string :=
  list_to_set ["name"; "id"; "description"; "max_retries"; "retry_delay";
               "timeout"; "trigger"; "type"; "version"].

(** ** Binding maps, further conditions *)

(** The binding map a call hands to the flow: [bind], then the captured
    keywords flattened (lines 109-114). *)
Definition call_bindings (sig : list param) (args : list pyval)
    (kwargs : gmap string pyval) : type_error + gmap string bound :=
  match bind sig args kwargs with
  | inl e => inl e
  | inr callargs => expand_var_kw (get_var_kw_arg sig) callargs
  end.

(** More positional arguments than named positional parameters, and no
    [*args] to take the rest: the argument at position [i] meets no
    parameter, or one that is keyword-only or [**kwargs]. *)
Definition too_many_positional (sig : list param) (args : list pyval) : Prop :=
  ∃ (i : nat), i < length args
    ∧ (∀ (j : nat), j < i →
         ∃ q, sig !! j = Some q ∧ p_kind q = POSITIONAL_OR_KEYWORD)
    ∧ match sig !! i with
      | None => True
      | Some q => p_kind q = KEYWORD_ONLY ∨ p_kind q = VAR_KEYWORD
      end.

(** Identifiers are pairwise distinct among the live tasks. *)
Definition ids_distinct (w : World) : Prop :=
  ∀ (r1 r2 : tref) t1 t2,
    heap w !! r1 = Some t1 → heap w !! r2 = Some t2 → _id t1 = _id t2 → r1 = r2.

(** ** States built by the operations of task.py *)




(** ** Sample states *)

(** A generator that issues the decimal numerals. *)
Definition uuid_demo (n : nat) : string := pretty n.

Definition world_after {A} (r : Res A) (w0 : World) : World :=
  match r with
  | Ret _ w => w
  | Raise _ w => w
  | Stuck => w0
  end.

(** An interpreter that has run nothing yet. *)
Definition world0 : World :=
  {| heap := ∅; TASK_REGISTRY := ∅; dicts := ∅; flows := ∅;
     context := {| ctx_flow := None; ctx_parameters := None |};
     uuid_counter := 0; prefect_version := "0.0.1" |}.

(** [world0] after [Task()]: the task is the object at address [0]. *)
Definition world1 : World :=
  world_after (Task_init uuid_demo Task_class None no_args world0) world0.

(** The first object a constructor leaves in [world0]. *)
Definition first_task (c : TaskClass) (attrs : option ParameterAttrs)
    (n : string) : TaskObj :=
  {| cls := c; _id := "0"; name := n; description := None; max_retries := 0;
     retry_delay := timedelta_minutes 1; timeout := None;
     trigger := all_successful; secrets := 0; _prefect_version := "0.0.1";
     param_attrs := attrs |}.

(** A task class with the work function [run(self, x, y, c=None)], and
    [world0] after constructing one such task. *)
Definition sig_xyc : list param :=
  [Param "x" POSITIONAL_OR_KEYWORD false;
   Param "y" POSITIONAL_OR_KEYWORD false;
   Param "c" POSITIONAL_OR_KEYWORD true].

Definition Add_class : TaskClass :=
  {| cls_name := "Add"; cls_run := self_param :: sig_xyc |}.

Definition world_add : World :=
  world_after (Task_init uuid_demo Add_class None no_args world0) world0.

(** A task class with the work function [run(self, x, **kwargs)]. *)
Definition sig_xkw : list param :=
  [Param "x" POSITIONAL_OR_KEYWORD false; Param "kwargs" VAR_KEYWORD false].

Definition Collect_class : TaskClass :=
  {| cls_name := "Collect"; cls_run := self_param :: sig_xkw |}.

Definition world_collect : World :=
  world_after (Task_init uuid_demo Collect_class None no_args world0) world0.

(** [world0] after [Parameter("n")]. *)
Definition attrs_n : ParameterAttrs :=
  {| required := true; default_value := PNone |}.

Definition world_param : World :=
  world_after (Parameter_init uuid_demo "n" PNone true world0) world0.

(** [world0] after [Task()] twice: the tasks are the objects at [0] and
    [1], with the identifiers [0] and [1]. *)
Definition world2 : World :=
  world_after (Task_init uuid_demo Task_class None no_args world1) world1.

Definition second_task : TaskObj :=
  {| cls := Task_class; _id := "1"; name := "Task"; description := None;
     max_retries := 0; retry_delay := timedelta_minutes 1; timeout := None;
     trigger := all_successful; secrets := 1; _prefect_version := "0.0.1";
     param_attrs := None |}.

(** [world0] with a dict that holds one secret, and the constructor
    arguments that pass it as [secrets]. *)
Definition world_dict : World :=
  set_dicts {[0 := {["token" := PStr "vault/token"]}]} world0.

Definition args_with_secrets : InitArgs :=
  {| arg_name := None; arg_id := None; arg_description := None;
     arg_max_retries := 0; arg_retry_delay := timedelta_minutes 1;
     arg_timeout := None; arg_trigger := None; arg_secrets := Some 0 |}.


(** * Properties *)

(** One step of a computation. *)
Lemma bind_Ret {A B} (m : M A) (f : A → M B) w a w' :
  m w = Ret a w' → (m ≫= f) w = f a w'.
Proof. intros H. unfold mbind, M_bind. by rewrite H. Qed.

Lemma bind_Raise {A B} (m : M A) (f : A → M B) w e w' :
  m w = Raise e w' → (m ≫= f) w = Raise e w'.
Proof. intros H. unfold mbind, M_bind. by rewrite H. Qed.

Lemma get_task_Some r t w : heap w !! r = Some t → get_task r w = Ret t w.
Proof. intros H. unfold get_task. by rewrite H. Qed.

(** ** Slicing *)

Lemma slice_to_prefix n s : ∃ rest, s = slice_to n s +:+ rest.
Proof.
  revert s. induction n as [|n IH]; intros s.
  - exists s. by destruct s.
  - destruct s as [|c s]; [by exists EmptyString|].
    destruct (IH s) as [rest Hrest]. exists rest.
    change (String c s = String c (slice_to n s +:+ rest)). by f_equal.
Qed.

Lemma slice_to_length n s :
  String.length (slice_to n s) = Nat.min n (String.length s).
Proof.
  revert s. induction n as [|n IH]; intros [|c s]; simpl; auto.
Qed.

Section Registry.

Lemma Task_register_Ret self t w :
  heap w !! self = Some t →
  Task_register self w
  = Ret () (set_registry (<[_id t := self]> (TASK_REGISTRY w)) w).
Proof.
  intros H. unfold Task_register.
  by rewrite (bind_Ret _ _ _ _ _ (get_task_Some _ _ _ H)).
Qed.

Lemma Task_id_set_Ret self x t w :
  heap w !! self = Some t →
  Task_id_set self x w
  = Ret () (set_registry (<[x := self]> (TASK_REGISTRY w))
             (set_heap (<[self := with_id x t]> (heap w)) w)).
Proof.
  intros H. unfold Task_id_set.
  rewrite (bind_Ret _ _ _ _ _ (get_task_Some _ _ _ H)).
  unfold set_task, modify. unfold mbind at 1, M_bind at 1.
  rewrite (Task_register_Ret _ (with_id x t)); [done|].
  simpl. by rewrite lookup_insert_eq.
Qed.

(** C5: after [t.id = x] the registry maps [x] to [t], and [t.short_id]
    is [x[:8]], the first eight characters of [x] (all of [x] when it has
    fewer). *)
Theorem id_assignment_registers (self : tref) (x : string) (t : TaskObj)
    (w : World) :
  heap w !! self = Some t →
  ∃ w', Task_id_set self x w = Ret () w'
      ∧ TASK_REGISTRY w' !! x = Some self
      ∧ Task_id self w' = Ret x w'
      ∧ Task_short_id self w' = Ret (slice_to 8 x) w'
      ∧ (∃ rest, x = slice_to 8 x +:+ rest)
      ∧ String.length (slice_to 8 x) = Nat.min 8 (String.length x).
Proof.
  intros H. eexists. split; [by apply Task_id_set_Ret|].
  split; [simpl; by rewrite lookup_insert_eq|].
  assert (Hh : heap (set_registry (<[x := self]> (TASK_REGISTRY w))
                 (set_heap (<[self := with_id x t]> (heap w)) w)) !! self
               = Some (with_id x t)) by (simpl; by rewrite lookup_insert_eq).
  split; [|split; [|split]].
  - unfold Task_id. by rewrite (bind_Ret _ _ _ _ _ (get_task_Some _ _ _ Hh)).
  - unfold Task_short_id.
    by rewrite (bind_Ret _ _ _ _ _ (get_task_Some _ _ _ Hh)).
  - apply slice_to_prefix.
  - apply slice_to_length.
Qed.

End Registry.

(** ** Argument binding *)

Section Binding.

Implicit Types (ps sig rest : list param) (args : list pyval).
Implicit Types (kwargs : gmap string pyval) (acc : gmap string bound).

Lemma starred_var_keyword p : starred (p_kind p) = false → p_kind p ≠ VAR_KEYWORD.
Proof. by destruct (p_kind p). Qed.

(** The keyword loop fails when a required named parameter is left and
    no keyword carries its name. *)
Lemma bind_keywords_missing ps kwargs kp acc p :
  p ∈ ps → starred (p_kind p) = false → p_default p = false →
  kwargs !! p_name p = None →
  ∃ e, bind_keywords ps kwargs kp acc = inl e.
Proof.
  intros Hin Hkind Hdef. revert kwargs kp acc.
  induction ps as [|q ps IH]; intros kwargs kp acc Hkw; [by inversion Hin|].
  apply elem_of_cons in Hin as [<-|Hin]; simpl.
  - destruct (p_kind p); try discriminate; rewrite Hkw, Hdef; eauto.
  - destruct (p_kind q); auto.
    + destruct (kwargs !! p_name q) eqn:Hq.
      * apply IH; [done|]. apply lookup_delete_None. by right.
      * destruct (p_default q); eauto.
    + destruct (kwargs !! p_name q) eqn:Hq.
      * apply IH; [done|]. apply lookup_delete_None. by right.
      * destruct (p_default q); eauto.
Qed.

(** A keyword that names no parameter of the list survives the loop. *)
Lemma bind_keywords_leftover ps kwargs kp acc acc' kwargs' kp' k v :
  bind_keywords ps kwargs kp acc = inr (acc', kwargs', kp') →
  kwargs !! k = Some v →
  (∀ p, p ∈ ps → starred (p_kind p) = false → p_name p ≠ k) →
  kwargs' !! k = Some v.
Proof.
  revert kwargs kp acc. induction ps as [|q ps IH]; intros kwargs kp acc; simpl.
  - by intros [= <- <- <-].
  - intros Hb Hk Hnames.
    assert (Hps : ∀ p, p ∈ ps → starred (p_kind p) = false → p_name p ≠ k)
      by (intros p Hp; apply Hnames; by right).
    destruct (p_kind q) eqn:Hkq; try (by eapply IH);
      (destruct (kwargs !! p_name q) eqn:Hq;
       [ eapply IH; [done| |done];
         rewrite lookup_delete_ne; [done|];
         apply Hnames; [by left|by rewrite Hkq]
       | destruct (p_default q); [by eapply IH|done] ]).
Qed.

(** The capture parameter the loop remembers is one of the list. *)
Lemma bind_keywords_param ps kwargs kp acc acc' kwargs' kp' :
  bind_keywords ps kwargs kp acc = inr (acc', kwargs', kp') →
  kp' = kp ∨ ∃ p, p ∈ ps ∧ p_kind p = VAR_KEYWORD ∧ kp' = Some (p_name p).
Proof.
  revert kwargs kp acc. induction ps as [|q ps IH]; intros kwargs kp acc; simpl.
  - intros [= <- <- <-]. by left.
  - assert (Hstep : ∀ kwargs0 kp0 acc0,
              bind_keywords ps kwargs0 kp0 acc0 = inr (acc', kwargs', kp') →
              kp' = kp0 ∨ ∃ p, p ∈ q :: ps ∧ p_kind p = VAR_KEYWORD
                               ∧ kp' = Some (p_name p)).
    { intros kwargs0 kp0 acc0 Hb.
      destruct (IH _ _ _ Hb) as [->|(p & Hp & Hk & ->)]; [by left|].
      right. exists p. split; [by right|done]. }
    destruct (p_kind q) eqn:Hkq.
    + destruct (kwargs !! p_name q); [by apply Hstep|].
      destruct (p_default q); [by apply Hstep|done].
    + by apply Hstep.
    + destruct (kwargs !! p_name q); [by apply Hstep|].
      destruct (p_default q); [by apply Hstep|done].
    + intros Hb. destruct (Hstep _ _ _ Hb) as [->|?]; [|by right].
      right. exists q. split; [by left|done].
Qed.

(** Entries are only written under the names of parameters that are not
    the capture parameter. *)
Lemma bind_keywords_lookup ps kwargs kp acc acc' kwargs' kp' k :
  bind_keywords ps kwargs kp acc = inr (acc', kwargs', kp') →
  (∀ p, p ∈ ps → p_kind p ≠ VAR_KEYWORD → p_name p ≠ k) →
  acc' !! k = acc !! k.
Proof.
  revert kwargs kp acc. induction ps as [|q ps IH]; intros kwargs kp acc; simpl.
  - by intros [= <- <- <-].
  - intros Hb Hnames.
    assert (Hps : ∀ p, p ∈ ps → p_kind p ≠ VAR_KEYWORD → p_name p ≠ k)
      by (intros p Hp; apply Hnames; by right).
    destruct (p_kind q) eqn:Hkq; try (by eapply IH);
      (destruct (kwargs !! p_name q) eqn:Hq;
       [ rewrite (IH _ _ _ Hb Hps); apply lookup_insert_ne;
         apply Hnames; [by left|by rewrite Hkq]
       | destruct (p_default q); [by eapply IH|done] ]).
Qed.

Lemma bind_keywords_error ps kwargs kp acc e :
  bind_keywords ps kwargs kp acc = inl e → is_binding_error (TypeError e) = true.
Proof.
  revert kwargs kp acc. induction ps as [|q ps IH]; intros kwargs kp acc; simpl;
    [done|].
  destruct (p_kind q); try (by apply IH);
    (destruct (kwargs !! p_name q); [by apply IH|];
     destruct (p_default q); [by apply IH|by intros [= <-]]).
Qed.

(** *** The positional loop *)

(** A parameter that is not starred and takes no positional argument is
    handed to the keyword loop. *)
Lemma bind_positional_keeps ps args kwargs acc acc' rest (i : nat) p :
  bind_positional ps args kwargs acc = inr (acc', rest) →
  ps !! i = Some p → starred (p_kind p) = false →
  ¬ (p_kind p = POSITIONAL_OR_KEYWORD ∧ i < length args) →
  p ∈ rest.
Proof.
  revert args acc i. induction ps as [|q ps IH]; intros args acc i; [done|].
  destruct args as [|a args]; simpl.
  - intros Hb Hi Hstar _.
    assert (Hall : p ∈ q :: ps) by (by eapply list_elem_of_lookup_2).
    destruct (p_kind q) eqn:Hkq.
    + repeat case_decide; try destruct (p_default q); by simplify_eq.
    + destruct i as [|i]; simpl in Hi; simplify_eq.
      * by rewrite Hkq in Hstar.
      * by eapply list_elem_of_lookup_2.
    + repeat case_decide; try destruct (p_default q); by simplify_eq.
    + repeat case_decide; try destruct (p_default q); by simplify_eq.
  - intros Hb Hi Hstar Hpos. destruct (p_kind q) eqn:Hkq; try done.
    + case_decide; [done|]. destruct i as [|i]; simpl in Hi; simplify_eq.
      * exfalso. apply Hpos. split; [done|lia].
      * eapply IH; [done..|]. intros [? ?]. apply Hpos. split; [done|lia].
    + destruct i as [|i]; simpl in Hi; simplify_eq.
      * by rewrite Hkq in Hstar.
      * by eapply list_elem_of_lookup_2.
Qed.

(** The keyword loop only sees parameters of the signature. *)
Lemma bind_positional_incl ps args kwargs acc acc' rest p :
  bind_positional ps args kwargs acc = inr (acc', rest) →
  p ∈ rest → p ∈ ps.
Proof.
  revert args acc. induction ps as [|q ps IH]; intros args acc;
    destruct args as [|a args]; simpl; try done.
  - by intros [= <- <-].
  - destruct (p_kind q); repeat case_decide; try destruct (p_default q);
      intros ? ?; simplify_eq; try done; by right.
  - destruct (p_kind q); try done.
    + case_decide; [done|]. intros Hb Hp. right. by eapply IH.
    + intros ? ?; simplify_eq. by right.
Qed.

Lemma bind_positional_lookup ps args kwargs acc acc' rest k :
  bind_positional ps args kwargs acc = inr (acc', rest) →
  (∀ p, p ∈ ps → p_kind p ≠ VAR_KEYWORD → p_name p ≠ k) →
  acc' !! k = acc !! k.
Proof.
  revert args acc. induction ps as [|q ps IH]; intros args acc;
    destruct args as [|a args]; simpl; try done.
  - by intros [= <- <-].
  - destruct (p_kind q); repeat case_decide; try destruct (p_default q);
      intros ? ?; by simplify_eq.
  - intros Hb Hnames. destruct (p_kind q) eqn:Hkq; try done.
    + case_decide; [done|].
      rewrite (IH _ _ Hb); [|intros p Hp; apply Hnames; by right].
      apply lookup_insert_ne. apply Hnames; [by left|by rewrite Hkq].
    + simplify_eq. apply lookup_insert_ne.
      apply Hnames; [by left|by rewrite Hkq].
Qed.

(** A keyword naming a parameter that a positional argument reaches stops
    the positional loop. *)
Lemma bind_positional_duplicate ps args kwargs acc (i : nat) p :
  ps !! i = Some p →
  (∀ (j : nat) q, j ≤ i → ps !! j = Some q → p_kind q = POSITIONAL_OR_KEYWORD) →
  i < length args → is_Some (kwargs !! p_name p) →
  ∃ e, bind_positional ps args kwargs acc = inl e.
Proof.
  revert args acc i. induction ps as [|q ps IH]; intros args acc i; [done|].
  intros Hi Hbefore Hlen Hkw.
  destruct args as [|a args]; simpl in *; [lia|].
  rewrite (Hbefore 0 q); [|lia|done].
  case_decide; [eauto|].
  destruct i as [|i]; simpl in Hi; simplify_eq; [done|].
  eapply IH; [done| |lia|done].
  intros j q' Hj Hq'. apply (Hbefore (S j)); [lia|done].
Qed.

Lemma bind_positional_error ps args kwargs acc e :
  bind_positional ps args kwargs acc = inl e →
  is_binding_error (TypeError e) = true.
Proof.
  revert args acc. induction ps as [|q ps IH]; intros args acc;
    destruct args as [|a args]; simpl; try done.
  - by intros [= <-].
  - destruct (p_kind q); repeat case_decide; try destruct (p_default q);
      intros ?; by simplify_eq.
  - destruct (p_kind q); try (intros ?; by simplify_eq).
    case_decide; [intros ?; by simplify_eq|]. apply IH.
Qed.

Lemma bind_error sig args kwargs e :
  bind sig args kwargs = inl e → is_binding_error (TypeError e) = true.
Proof.
  unfold bind.
  destruct (bind_positional sig args kwargs ∅) as [e1|[acc rest]] eqn:H1.
  { intros [= <-]. by eapply bind_positional_error. }
  destruct (bind_keywords rest kwargs None acc) as [e2|[[acc' kw'] kp]] eqn:H2.
  { intros [= <-]. by eapply bind_keywords_error. }
  case_decide; [done|]. destruct kp; [done|]. by intros [= <-].
Qed.

(** *** Parameter lists of a [def] *)

Lemma kinds_ordered_tail p ps : kinds_ordered (p :: ps) = true → kinds_ordered ps = true.
Proof. destruct ps as [|q ps]; [done|]. simpl. by intros [_ ?]%andb_prop. Qed.

Lemma kinds_ordered_step p q ps :
  kinds_ordered (p :: q :: ps) = true →
  kind_rank (p_kind p) ≤ kind_rank (p_kind q)
  ∧ (starred (p_kind p) = true → kind_rank (p_kind p) < kind_rank (p_kind q)).
Proof.
  simpl. intros [Hord _]%andb_prop. destruct (starred (p_kind p)).
  - apply Nat.ltb_lt in Hord. split; [lia|done].
  - apply Nat.leb_le in Hord. split; [done|discriminate].
Qed.

Lemma kinds_ordered_head ps (j : nat) p q :
  kinds_ordered (p :: ps) = true → (p :: ps) !! j = Some q →
  kind_rank (p_kind p) ≤ kind_rank (p_kind q).
Proof.
  revert p ps. induction j as [|j IHj]; intros p ps Hord Hj; simpl in Hj.
  - by simplify_eq.
  - destruct ps as [|r ps]; [done|].
    destruct (kinds_ordered_step _ _ _ Hord) as [Hpr _].
    etrans; [exact Hpr|]. eapply IHj; [by eapply kinds_ordered_tail|done].
Qed.

Lemma kinds_ordered_rank ps (i j : nat) p q :
  kinds_ordered ps = true → ps !! i = Some p → ps !! j = Some q → i ≤ j →
  kind_rank (p_kind p) ≤ kind_rank (p_kind q).
Proof.
  revert i j p. induction ps as [|r ps IH]; intros i j p Hord Hi Hj Hle; [done|].
  destruct i as [|i]; simpl in Hi; simplify_eq.
  - by eapply kinds_ordered_head.
  - destruct j as [|j]; [lia|]. simpl in Hj.
    eapply IH; [by eapply kinds_ordered_tail|done..|lia].
Qed.

(** There is at most one capture parameter. *)
Lemma kinds_ordered_starred_strict ps (i j : nat) p q :
  kinds_ordered ps = true → ps !! i = Some p → ps !! j = Some q → i < j →
  starred (p_kind p) = true →
  kind_rank (p_kind p) < kind_rank (p_kind q).
Proof.
  revert i j p. induction ps as [|r ps IH]; intros i j p Hord Hi Hj Hlt Hst; [done|].
  destruct i as [|i]; simpl in Hi; simplify_eq.
  - destruct j as [|j]; [lia|]. simpl in Hj.
    destruct ps as [|r ps]; [done|].
    destruct (kinds_ordered_step _ _ _ Hord) as [_ Hpr].
    eapply Nat.lt_le_trans; [by apply Hpr|].
    eapply kinds_ordered_head; [by eapply kinds_ordered_tail|done].
  - destruct j as [|j]; [lia|]. simpl in Hj.
    eapply IH; [by eapply kinds_ordered_tail|done..|lia|done].
Qed.

Lemma var_keyword_unique sig p q :
  wf_signature sig → p ∈ sig → q ∈ sig →
  p_kind p = VAR_KEYWORD → p_kind q = VAR_KEYWORD → p = q.
Proof.
  intros [Hord _] [i Hi]%list_elem_of_lookup_1 [j Hj]%list_elem_of_lookup_1 Hp Hq.
  destruct (Nat.lt_trichotomy i j) as [Hlt|[->|Hlt]].
  - pose proof (kinds_ordered_starred_strict _ _ _ _ _ Hord Hi Hj Hlt) as H.
    rewrite Hp, Hq in H. simpl in H. specialize (H eq_refl). lia.
  - congruence.
  - pose proof (kinds_ordered_starred_strict _ _ _ _ _ Hord Hj Hi Hlt) as H.
    rewrite Hp, Hq in H. simpl in H. specialize (H eq_refl). lia.
Qed.

Lemma param_name_inj sig p q :
  wf_signature sig → p ∈ sig → q ∈ sig → p_name p = p_name q → p = q.
Proof.
  intros [_ Hnd] [i Hi]%list_elem_of_lookup_1 [j Hj]%list_elem_of_lookup_1 Hn.
  assert (i = j) as ->; [|congruence].
  eapply NoDup_lookup; [exact Hnd| |].
  - rewrite list_lookup_fmap, Hi. done.
  - rewrite list_lookup_fmap, Hj. simpl. by rewrite Hn.
Qed.

Lemma get_var_kw_arg_Some sig n :
  get_var_kw_arg sig = Some n →
  ∃ p, p ∈ sig ∧ p_kind p = VAR_KEYWORD ∧ p_name p = n.
Proof.
  unfold get_var_kw_arg.
  destruct (List.find _ sig) as [p|] eqn:Hf; [|done]. intros [= <-].
  apply find_some in Hf as [Hin Hk]. exists p.
  split; [by apply list_elem_of_In|]. split; [|done].
  by apply bool_decide_eq_true in Hk.
Qed.

Lemma get_var_kw_arg_None sig p :
  get_var_kw_arg sig = None → p ∈ sig → p_kind p ≠ VAR_KEYWORD.
Proof.
  unfold get_var_kw_arg.
  destruct (List.find _ sig) as [q|] eqn:Hf; [done|]. intros _ Hin Hk.
  apply list_elem_of_In in Hin.
  pose proof (find_none _ _ Hf _ Hin) as Hn. simpl in Hn.
  by apply bool_decide_eq_false in Hn.
Qed.

End Binding.


(** ** Calling a task *)

Section Call.

Implicit Types (sig : list param) (args : list pyval).
Implicit Types (kwargs : gmap string pyval).

Lemma bind_missing_required sig args kwargs :
  missing_required sig args kwargs → ∃ e, bind sig args kwargs = inl e.
Proof.
  intros (i & p & Hi & Hstar & Hdef & Hpos & Hkw). unfold bind.
  destruct (bind_positional sig args kwargs ∅) as [e|[acc rest]] eqn:H1; [eauto|].
  pose proof (bind_positional_keeps _ _ _ _ _ _ _ _ H1 Hi Hstar Hpos) as Hin.
  destruct (bind_keywords_missing rest kwargs None acc p Hin Hstar Hdef Hkw)
    as [e ->].
  eauto.
Qed.

Lemma bind_duplicate_binding sig args kwargs :
  wf_signature sig → duplicate_binding sig args kwargs →
  ∃ e, bind sig args kwargs = inl e.
Proof.
  intros [Hord _] (i & p & Hi & Hkind & Hlen & Hkw). unfold bind.
  destruct (bind_positional_duplicate sig args kwargs ∅ i p) as [e ->];
    [done| |done|done|eauto].
  intros j q Hj Hq.
  pose proof (kinds_ordered_rank _ _ _ _ _ Hord Hq Hi Hj) as Hr.
  rewrite Hkind in Hr. destruct (p_kind q); simpl in Hr; [done|lia..].
Qed.

Lemma bind_unrecognized_keyword sig args kwargs :
  unrecognized_keyword sig kwargs → ∃ e, bind sig args kwargs = inl e.
Proof.
  intros (Hnone & k & [v Hk] & Hnames). unfold bind.
  destruct (bind_positional sig args kwargs ∅) as [e|[acc rest]] eqn:H1; [eauto|].
  destruct (bind_keywords rest kwargs None acc) as [e|[[acc' kw'] kp]] eqn:H2;
    [eauto|].
  assert (kw' !! k = Some v) as Hleft.
  { eapply bind_keywords_leftover; [done..|].
    intros p Hp. apply Hnames. by eapply bind_positional_incl. }
  case_decide; [by simplify_map_eq|].
  destruct (bind_keywords_param _ _ _ _ _ _ _ H2) as [->|(p & Hp & Hkind & _)];
    [eauto|].
  exfalso. eapply get_var_kw_arg_None; [done| |done].
  by eapply bind_positional_incl.
Qed.

Lemma bind_unbindable sig args kwargs :
  wf_signature sig → unbindable sig args kwargs →
  ∃ e, bind sig args kwargs = inl e.
Proof.
  intros Hwf [H|[H|H]].
  - by apply bind_missing_required.
  - by apply bind_duplicate_binding.
  - by apply bind_unrecognized_keyword.
Qed.

(** C1: a call whose arguments cannot be bound (a required parameter
    without a value, a parameter given both positionally and by keyword,
    or a keyword that names no parameter when there is no capture
    parameter) raises the binding error, [TypeError] from
    [Signature.bind], before anything else happens: the state is the one
    the call started in. *)
Theorem call_unbindable_raises (self : tref) (t : TaskObj) sig args kwargs
    (w : World) :
  heap w !! self = Some t →
  signature_bound_method (cls_run (cls t)) = inr sig →
  wf_signature sig →
  unbindable sig args kwargs →
  ∃ e, Task_call self args kwargs w = Raise e w
     ∧ is_binding_error e = true.
Proof.
  intros Hself Hsig Hwf Hbad.
  unfold Task_call. case_decide; [by eexists|].
  destruct (bind_unbindable _ _ _ Hwf Hbad) as [e He].
  exists (TypeError e). split; [|by eapply bind_error].
  rewrite (bind_Ret _ _ _ _ _ (get_task_Some _ _ _ Hself)).
  unfold run_signature. rewrite Hsig. simpl.
  unfold mbind at 1, M_bind at 1. simpl.
  unfold mbind at 1, M_bind at 1. by rewrite He.
Qed.

(** *** Flattening the captured keywords *)

(** After binding, the capture parameter's name holds the dict of the
    captured keywords or nothing. *)
Lemma bind_var_kw_entry sig args kwargs callargs n :
  wf_signature sig → bind sig args kwargs = inr callargs →
  get_var_kw_arg sig = Some n →
  callargs !! n = None ∨ ∃ kw, callargs !! n = Some (BKwargs kw).
Proof.
  intros Hwf Hbind (p & Hp & Hkind & <-)%get_var_kw_arg_Some.
  assert (Hnames : ∀ q, q ∈ sig → p_kind q ≠ VAR_KEYWORD → p_name q ≠ p_name p).
  { intros q Hq Hkq Heq. apply Hkq.
    by rewrite (param_name_inj sig q p Hwf Hq Hp Heq). }
  unfold bind in Hbind.
  destruct (bind_positional sig args kwargs ∅) as [e|[acc rest]] eqn:H1; [done|].
  destruct (bind_keywords rest kwargs None acc) as [e|[[acc' kw'] kp]] eqn:H2;
    [done|].
  assert (acc' !! p_name p = None) as Hacc.
  { rewrite (bind_keywords_lookup _ _ _ _ _ _ _ _ H2).
    - by rewrite (bind_positional_lookup _ _ _ _ _ _ _ H1 Hnames).
    - intros q Hq. apply Hnames. by eapply bind_positional_incl. }
  case_decide; [left; by simplify_eq|].
  destruct (bind_keywords_param _ _ _ _ _ _ _ H2) as [->|(q & Hq & Hkq & ->)];
    [done|].
  simplify_eq. right. exists kw'.
  rewrite (var_keyword_unique sig q p); [by rewrite lookup_insert_eq|done| |done..].
  by eapply bind_positional_incl.
Qed.

Lemma call_flow_Ret (w : World) :
  ∃ f w', call_flow w = Ret f w'
    ∧ match ctx_flow (context w) with
      | Some f0 => f = f0 ∧ w' = w
      | None => f = fresh (dom (flows w))
                ∧ w' = set_flows (<[f := empty_flow]> (flows w)) w
      end.
Proof.
  unfold call_flow, Context_get_flow, mbind, M_bind.
  destruct (ctx_flow (context w)) as [f0|]; simpl.
  - by exists f0, w.
  - unfold Flow_new. by eexists _, _.
Qed.

Lemma Task_call_bound self t sig args kwargs callargs final (w : World) :
  heap w !! self = Some t →
  signature_bound_method (cls_run (cls t)) = inr sig →
  kwargs !! "self" = None →
  bind sig args kwargs = inr callargs →
  expand_var_kw (get_var_kw_arg sig) callargs = inr final →
  Task_call self args kwargs w
  = (flow ← call_flow; Flow_set_dependencies flow self final) w.
Proof.
  intros Hself Hsig Hnoself Hbind Hexp. unfold Task_call.
  rewrite decide_False by (rewrite Hnoself; by intros [? ?]).
  rewrite (bind_Ret _ _ _ _ _ (get_task_Some _ _ _ Hself)).
  unfold run_signature. rewrite Hsig. simpl.
  unfold mbind at 1, M_bind at 1. simpl.
  unfold mbind at 1, M_bind at 1. rewrite Hbind. simpl.
  unfold mbind at 1, M_bind at 1. by rewrite Hexp.
Qed.

(** C9: for a call that reaches the binding (no keyword is named [self],
    which [__call__] itself refuses), the binding map handed to the flow
    has every captured keyword as an entry of its own; under the capture
    parameter's name it no longer has the dict of captured keywords (only
    a captured keyword of that very name, if there is one); all other
    entries are those of the binding.  Without a capture parameter the
    map is the binding. *)
Theorem call_flattens_captured_keywords (self : tref) (t : TaskObj)
    sig args kwargs callargs (w : World) :
  heap w !! self = Some t →
  signature_bound_method (cls_run (cls t)) = inr sig →
  wf_signature sig →
  kwargs !! "self" = None →
  bind sig args kwargs = inr callargs →
  ∃ final flow w',
    expand_var_kw (get_var_kw_arg sig) callargs = inr final
    ∧ call_flow w = Ret flow w'
    ∧ Task_call self args kwargs w = Flow_set_dependencies flow self final w'
    ∧ match get_var_kw_arg sig with
      | None => final = callargs
      | Some n =>
          (callargs !! n = None
           ∨ callargs !! n = Some (BKwargs (captured n callargs)))
          ∧ (∀ k v, captured n callargs !! k = Some v →
                    final !! k = Some (BArg v))
          ∧ final !! n = BArg <$> captured n callargs !! n
          ∧ (∀ k, k ≠ n → captured n callargs !! k = None →
                  final !! k = callargs !! k)
      end.
Proof.
  intros Hself Hsig Hwf Hnoself Hbind.
  destruct (call_flow_Ret w) as (flow & w' & Hflow & _).
  assert (∃ final, expand_var_kw (get_var_kw_arg sig) callargs = inr final
    ∧ match get_var_kw_arg sig with
      | None => final = callargs
      | Some n =>
          (callargs !! n = None
           ∨ callargs !! n = Some (BKwargs (captured n callargs)))
          ∧ (∀ k v, captured n callargs !! k = Some v →
                    final !! k = Some (BArg v))
          ∧ final !! n = BArg <$> captured n callargs !! n
          ∧ (∀ k, k ≠ n → captured n callargs !! k = None →
                  final !! k = callargs !! k)
      end) as (final & Hexp & Hfinal).
  { destruct (get_var_kw_arg sig) as [n|] eqn:Hn; [|by exists callargs].
    unfold expand_var_kw, captured.
    destruct (bind_var_kw_entry _ _ _ _ _ Hwf Hbind Hn) as [Hnone|[kw Hkw]].
    - rewrite Hnone. exists callargs. repeat split; auto; by intros.
    - rewrite Hkw. eexists. split; [done|]. split; [by right|].
      split; [|split].
      + intros k v Hk. apply lookup_union_Some_l. by rewrite lookup_fmap, Hk.
      + rewrite lookup_union, lookup_delete_eq, lookup_fmap.
        by destruct (kw !! n).
      + intros k Hne Hk.
        rewrite lookup_union_r; [by rewrite lookup_delete_ne|].
        by rewrite lookup_fmap, Hk. }
  exists final, flow, w'. repeat split; try done.
  rewrite (Task_call_bound _ _ _ _ _ _ _ _ Hself Hsig Hnoself Hbind Hexp).
  by rewrite (bind_Ret _ _ _ _ _ Hflow).
Qed.

(** C4, as the code has it: when the arguments bind (and no keyword is
    named [self], which [__call__] itself refuses), with an ambient flow
    the node and the edges go to that flow; without one they go to a new
    flow that was empty, which is handed back in the result.  The context
    is not written: no ambient flow is installed. *)
Theorem call_registers_in_ambient_or_new_flow (self : tref) (t : TaskObj)
    sig args kwargs callargs final (w : World) :
  heap w !! self = Some t →
  signature_bound_method (cls_run (cls t)) = inr sig →
  kwargs !! "self" = None →
  bind sig args kwargs = inr callargs →
  expand_var_kw (get_var_kw_arg sig) callargs = inr final →
  match ctx_flow (context w) with
  | Some f =>
      ∀ fl, flows w !! f = Some fl →
      ∃ w', Task_call self args kwargs w
            = Ret {| tr_task := self; tr_flow := f |} w'
          ∧ flows w' !! f = Some (add_dependencies self final fl)
          ∧ context w' = context w
  | None =>
      let f := fresh (dom (flows w)) in
      ∃ w', Task_call self args kwargs w
            = Ret {| tr_task := self; tr_flow := f |} w'
          ∧ flows w !! f = None
          ∧ flows w' !! f = Some (add_dependencies self final empty_flow)
          ∧ context w' = context w
  end.
Proof.
  intros Hself Hsig Hnoself Hbind Hexp.
  rewrite (Task_call_bound _ _ _ _ _ _ _ _ Hself Hsig Hnoself Hbind Hexp).
  destruct (call_flow_Ret w) as (flow & w' & Hflow & Hcase).
  rewrite (bind_Ret _ _ _ _ _ Hflow).
  destruct (ctx_flow (context w)) as [f|] eqn:Hctx.
  - destruct Hcase as [-> ->]. intros fl Hfl.
    unfold Flow_set_dependencies. rewrite Hfl. eexists. split; [done|].
    simpl. by rewrite lookup_insert_eq.
  - destruct Hcase as [-> ->]. cbv zeta.
    unfold Flow_set_dependencies. simpl. rewrite lookup_insert_eq.
    eexists. split; [done|]. simpl. rewrite lookup_insert_eq.
    split; [|done].
    apply not_elem_of_dom. apply is_fresh.
Qed.

End Call.


(** ** The work function: declared inputs, parameters *)

Section Run.

Lemma Task_inputs_Ret (self : tref) (t : TaskObj) (p : param)
    (ps : list param) (w : World) :
  heap w !! self = Some t →
  cls_run (cls t) = p :: ps → p_kind p = POSITIONAL_OR_KEYWORD →
  Task_inputs self w = Ret (p_name <$> ps) w.
Proof.
  intros Hself Hrun Hkind. unfold Task_inputs.
  rewrite (bind_Ret _ _ _ _ _ (get_task_Some _ _ _ Hself)).
  unfold run_signature, signature_bound_method. rewrite Hrun, Hkind. reflexivity.
Qed.

(** C8: [inputs()] returns the names of the parameters the work function
    declares after the instance parameter, in declaration order, and
    leaves the state as it was; for [(self, x, y, c=None)] these are
    [x], [y], [c].  Nothing is cached: once the work function is rebound,
    the next call returns the names of the new declaration. *)
Theorem inputs_declared_names (self : tref) (t : TaskObj) (p : param)
    (ps : list param) (w : World) :
  heap w !! self = Some t →
  cls_run (cls t) = p :: ps → p_kind p = POSITIONAL_OR_KEYWORD →
  Task_inputs self w = Ret (p_name <$> ps) w
  ∧ (ps = [Param "x" POSITIONAL_OR_KEYWORD false;
           Param "y" POSITIONAL_OR_KEYWORD false;
           Param "c" POSITIONAL_OR_KEYWORD true] →
     Task_inputs self w = Ret ["x"; "y"; "c"] w)
  ∧ (∀ ps', let w' := set_heap (<[self := with_run (p :: ps') t]> (heap w)) w in
            Task_inputs self w' = Ret (p_name <$> ps') w').
Proof.
  intros Hself Hrun Hkind.
  split; [by eapply Task_inputs_Ret|]. split.
  - intros ->. by rewrite (Task_inputs_Ret _ _ _ _ _ Hself Hrun Hkind).
  - intros ps' w'.
    apply (Task_inputs_Ret self (with_run (p :: ps') t) p ps' w');
      [|reflexivity|exact Hkind].
    subst w'. simpl. by rewrite lookup_insert_eq.
Qed.

Lemma required_message_contains n : str_contains (required_message n) n.
Proof.
  exists ("Parameter " +:+ dquote),
         (dquote +:+ " was required but not provided.").
  reflexivity.
Qed.

(** C7: [Parameter.run] returns the value the runtime parameters hold
    under the parameter's name; when they hold none it raises [FAIL]
    with a message that contains the name if the parameter is required,
    and returns the default otherwise. *)
Theorem parameter_run_cases (self : tref) (t : TaskObj)
    (attrs : ParameterAttrs) (w : World) :
  heap w !! self = Some t → param_attrs t = Some attrs →
  match default ∅ (ctx_parameters (context w)) !! name t with
  | Some v => Parameter_run self w = Ret v w
  | None =>
      if required attrs
      then ∃ msg, Parameter_run self w = Raise (FAIL msg) w
                ∧ str_contains msg (name t)
      else Parameter_run self w = Ret (default_value attrs) w
  end.
Proof.
  intros Hself Hattrs. unfold Parameter_run.
  rewrite (bind_Ret _ _ _ _ _ (get_task_Some _ _ _ Hself)), Hattrs.
  unfold Context_get_parameters, mbind, M_bind.
  destruct (default ∅ (ctx_parameters (context w)) !! name t) as [v|] eqn:Hv.
  - rewrite bool_decide_eq_true_2 by eauto.
    by rewrite andb_false_r.
  - rewrite bool_decide_eq_false_2 by (by intros [? ?]).
    destruct (required attrs); simpl; [|done].
    eexists. split; [done|]. apply required_message_contains.
Qed.

End Run.


(** ** Construction and copies *)

Section Construction.

Variable uuid_of : nat → string.

Lemma secrets_or_new_Ret (a : InitArgs) (w : World) :
  args_ok a w →
  ∃ s w', secrets_or_new (arg_secrets a) w = Ret s w'
    ∧ heap w' = heap w ∧ TASK_REGISTRY w' = TASK_REGISTRY w
    ∧ flows w' = flows w ∧ context w' = context w
    ∧ uuid_counter w' = uuid_counter w
    ∧ prefect_version w' = prefect_version w
    ∧ is_Some (dicts w' !! s).
Proof.
  intros Hok. unfold secrets_or_new, new_dict.
  destruct (arg_secrets a) as [d|] eqn:Hd.
  - destruct (Hok d Hd) as [m Hm]. rewrite Hm. case_decide.
    + eexists _, _. split; [done|]. simpl. by rewrite lookup_insert_eq.
    + eexists _, _. split; [done|]. by rewrite Hm.
  - eexists _, _. split; [done|]. simpl. by rewrite lookup_insert_eq.
Qed.

(** What [Task.__init__] leaves behind. *)
Lemma Task_init_Ret (c : TaskClass) (attrs : option ParameterAttrs)
    (a : InitArgs) (w : World) :
  args_ok a w → ambient_flow_ok w →
  ∃ w' t,
    Task_init uuid_of c attrs a w = Ret (fresh (dom (heap w))) w'
    ∧ heap w' = <[fresh (dom (heap w)) := t]> (heap w)
    ∧ TASK_REGISTRY w'
      = <[uuid_of (uuid_counter w) := fresh (dom (heap w))]> (TASK_REGISTRY w)
    ∧ uuid_counter w' = S (uuid_counter w)
    ∧ context w' = context w
    ∧ prefect_version w' = prefect_version w
    ∧ cls t = c
    ∧ _id t = uuid_of (uuid_counter w)
    ∧ name t = name_or (arg_name a) (cls_name c)
    ∧ description t = arg_description a
    ∧ max_retries t = arg_max_retries a
    ∧ retry_delay t = arg_retry_delay a
    ∧ timeout t = arg_timeout a
    ∧ trigger t = default all_successful (arg_trigger a)
    ∧ is_Some (dicts w' !! secrets t)
    ∧ _prefect_version t = prefect_version w
    ∧ param_attrs t = attrs.
Proof.
  intros Hargs Hflow.
  destruct (secrets_or_new_Ret a (set_uuid_counter (S (uuid_counter w)) w) Hargs)
    as (s & w1 & Hs & Hh1 & Hr1 & Hf1 & Hc1 & Hu1 & Hv1 & Hd1).
  unfold Task_init, new_tref, generate_uuid, Task_register, get_task,
    set_task, modify, Context_get_flow, Flow_add_task.
  unfold mbind, M_bind, mret, M_ret. rewrite Hs. simpl.
  rewrite !lookup_insert_eq. simpl. rewrite !lookup_insert_eq. simpl.
  simpl in Hh1, Hr1, Hf1, Hc1, Hu1, Hv1.
  rewrite Hc1, Hh1, Hr1, Hv1, insert_insert_eq.
  destruct (ctx_flow (context w)) as [f|] eqn:Hctx.
  - destruct (Hflow f Hctx) as [fl Hfl]. simpl. rewrite Hf1, Hfl.
    eexists _, _. split; [done|]. simpl. by rewrite Hc1, Hu1.
  - eexists _, _. split; [done|]. simpl. by rewrite Hc1, Hu1.
Qed.

(** What [copy()] leaves behind.  The shallow copy goes through
    [__setstate__], which registers the new object under the identifier
    it has just received from the original. *)
Lemma Task_copy_Ret (self : tref) (t : TaskObj) (w : World) :
  heap w !! self = Some t →
  let new := fresh (dom (heap w)) in
  let u := uuid_of (uuid_counter w) in
  Task_copy uuid_of self w
  = Ret new
      {| heap := <[new := with_id u t]> (heap w);
         TASK_REGISTRY := <[u := new]> (<[_id t := new]> (TASK_REGISTRY w));
         dicts := dicts w; flows := flows w; context := context w;
         uuid_counter := S (uuid_counter w);
         prefect_version := prefect_version w |}.
Proof.
  intros Hself new u.
  unfold Task_copy, copy_copy, Task_setstate, Task_id_set, new_tref,
    generate_uuid, Task_register, get_task, set_task, modify.
  unfold mbind, M_bind, mret, M_ret. rewrite Hself. simpl.
  rewrite !lookup_insert_eq. simpl. rewrite !lookup_insert_eq. simpl.
  rewrite !lookup_insert_eq. simpl.
  by rewrite !insert_insert_eq.
Qed.

(** *** Identifiers in use *)

Lemma ids_issued_world0 : ids_issued uuid_of world0.
Proof. intros r t k Hr. simpl in Hr. by rewrite lookup_empty in Hr. Qed.

Section Unique.

(** [generate_uuid] never issues an identifier twice. *)
Hypothesis uuid_of_inj : Inj (=) (=) uuid_of.

Lemma ids_issued_insert (w w' : World) (new : tref) (t : TaskObj) :
  ids_issued uuid_of w →
  heap w' = <[new := t]> (heap w) →
  uuid_counter w' = S (uuid_counter w) →
  _id t = uuid_of (uuid_counter w) →
  ids_issued uuid_of w'.
Proof.
  intros Hinv Hheap Hctr Hid r t0 k Hr Hk. rewrite Hheap in Hr.
  rewrite Hctr in Hk. destruct (decide (r = new)) as [->|Hne].
  - rewrite lookup_insert_eq in Hr. simplify_eq. rewrite Hid.
    intros Heq%uuid_of_inj. lia.
  - rewrite lookup_insert_ne in Hr by done. eapply Hinv; [done|lia].
Qed.

Lemma ids_issued_init (c : TaskClass) (attrs : option ParameterAttrs)
    (a : InitArgs) (w w' : World) (self : tref) :
  args_ok a w → ambient_flow_ok w → ids_issued uuid_of w →
  Task_init uuid_of c attrs a w = Ret self w' →
  ids_issued uuid_of w'.
Proof.
  intros Hargs Hflow Hinv Hinit.
  destruct (Task_init_Ret c attrs a w Hargs Hflow)
    as (w1 & t & Hret & Hheap & _ & Hctr & _ & _ & _ & Hid & _).
  rewrite Hret in Hinit. simplify_eq. by eapply ids_issued_insert.
Qed.


End Unique.

End Construction.


(** ** Serialization *)

Section Serialization.

Variable uuid_of : nat → string.
Variable Serializable_serialize : TaskObj → gmap string pyval.

Lemma update_task_fields_dom (t : TaskObj) (base : gmap string pyval) :
  dom (update_task_fields t base) = task_keys ∪ dom base.
Proof.
  unfold update_task_fields, task_keys. rewrite !dom_insert_L. simpl.
  by rewrite (right_id_L ∅ (∪)), <- !(assoc_L (∪)).
Qed.

Lemma update_task_fields_lookup (t : TaskObj) (base : gmap string pyval) :
  let m := update_task_fields t base in
  m !! "name" = Some (PStr (name t))
  ∧ m !! "id" = Some (PStr (_id t))
  ∧ m !! "description" = Some (opt_str (description t))
  ∧ m !! "max_retries" = Some (PInt (max_retries t))
  ∧ m !! "retry_delay" = Some (PTimedelta (retry_delay t))
  ∧ m !! "timeout" = Some (opt_timedelta (timeout t))
  ∧ m !! "trigger" = Some (PFunction (trigger t))
  ∧ m !! "type" = Some (PStr (cls_name (cls t)))
  ∧ m !! "prefect_version" = Some (PStr (_prefect_version t)).
Proof. unfold update_task_fields. repeat split; by simplify_map_eq. Qed.

Lemma Task_serialize_Ret (self : tref) (t : TaskObj) (w : World) :
  heap w !! self = Some t →
  Task_serialize Serializable_serialize self w
  = Ret (update_task_fields t (Serializable_serialize t)) w.
Proof.
  intros Hself. unfold Task_serialize.
  by rewrite (bind_Ret _ _ _ _ _ (get_task_Some _ _ _ Hself)).
Qed.

(** C2, as the code has it: [serialize] returns what [Serializable]
    contributes, updated with nine entries whose keys are [name], [id],
    [description], [max_retries], [retry_delay], [timeout], [trigger],
    [type] and [prefect_version]; [type] holds the class name and
    [prefect_version] the attribute that the constructor took from the
    system version, whatever the system version is when [serialize]
    runs. *)
Theorem serialize_writes_task_keys (self : tref) (t : TaskObj) (w : World) :
  heap w !! self = Some t →
  ∃ m,
    (∀ w2, heap w2 !! self = Some t →
           Task_serialize Serializable_serialize self w2 = Ret m w2)
    ∧ dom m = task_keys ∪ dom (Serializable_serialize t)
    ∧ m !! "type" = Some (PStr (cls_name (cls t)))
    ∧ m !! "prefect_version" = Some (PStr (_prefect_version t))
    ∧ (∀ c attrs a w0, args_ok a w0 → ambient_flow_ok w0 →
         ∃ r w1 t1 m1,
           Task_init uuid_of c attrs a w0 = Ret r w1
           ∧ heap w1 !! r = Some t1
           ∧ _prefect_version t1 = prefect_version w0
           ∧ Task_serialize Serializable_serialize r w1 = Ret m1 w1
           ∧ m1 !! "type" = Some (PStr (cls_name c))
           ∧ m1 !! "prefect_version" = Some (PStr (prefect_version w0))).
Proof.
  intros Hself. exists (update_task_fields t (Serializable_serialize t)).
  pose proof (update_task_fields_lookup t (Serializable_serialize t))
    as (_ & _ & _ & _ & _ & _ & _ & Hty & Hv).
  split; [intros w2 H2; by apply Task_serialize_Ret|].
  split; [apply update_task_fields_dom|]. split; [done|]. split; [done|].
  intros c attrs a w0 Hargs Hflow.
  destruct (Task_init_Ret uuid_of c attrs a w0 Hargs Hflow)
    as (w1 & t1 & Hret & Hheap & _ & _ & _ & _ & Hcls & _ & _ & _ & _ & _
        & _ & _ & _ & Hver & _).
  assert (Hr : heap w1 !! fresh (dom (heap w0)) = Some t1)
    by (by rewrite Hheap, lookup_insert_eq).
  pose proof (update_task_fields_lookup t1 (Serializable_serialize t1))
    as (_ & _ & _ & _ & _ & _ & _ & Hty1 & Hv1).
  eexists _, _, _, _. split; [exact Hret|]. split; [exact Hr|].
  split; [exact Hver|]. split; [by apply Task_serialize_Ret|].
  by rewrite <- Hcls, <- Hver.
Qed.

Lemma as_opt_str_opt_str (o : option string) : as_opt_str (opt_str o) = Some o.
Proof. by destruct o. Qed.

Lemma as_opt_timedelta_opt_timedelta (o : option timedelta) :
  as_opt_timedelta (opt_timedelta o) = Some o.
Proof. by destruct o. Qed.

(** Deserializing what [serialize] wrote for [t], in any state. *)
Lemma deserialize_serialized (variants : list TaskClass) (t : TaskObj)
    (c : TaskClass) (w1 : World) :
  find_variant variants (cls_name (cls t)) = Some c →
  let m := update_task_fields t (Serializable_serialize t) in
  let new := fresh (dom (heap w1)) in
  let u := uuid_of (uuid_counter w1) in
  let s := fresh (dom (dicts w1)) in
  deserialize uuid_of variants m w1
  = Ret new
      {| heap :=
           <[new := {| cls := c; _id := _id t; name := name t;
                       description := description t;
                       max_retries := max_retries t;
                       retry_delay := retry_delay t;
                       timeout := timeout t; trigger := trigger t;
                       secrets := s;
                       _prefect_version := prefect_version w1;
                       param_attrs := variant_attrs c |}]> (heap w1);
         TASK_REGISTRY := <[_id t := new]> (<[u := new]> (TASK_REGISTRY w1));
         dicts := <[s := ∅]> (dicts w1);
         flows := flows w1; context := context w1;
         uuid_counter := S (uuid_counter w1);
         prefect_version := prefect_version w1 |}.
Proof.
  intros Hc m new u s.
  pose proof (update_task_fields_lookup t (Serializable_serialize t))
    as (Hn & Hi & Hd & Hmr & Hrd & Hto & Htr & Hty & _).
  fold m in Hn, Hi, Hd, Hmr, Hrd, Hto, Htr, Hty.
  unfold deserialize, reconstruct, Task_after_deserialize.
  rewrite Hn, Hi, Hd, Hmr, Hrd, Hto, Htr, Hty. simpl.
  rewrite as_opt_str_opt_str, as_opt_timedelta_opt_timedelta, Hc.
  unfold Task_id_set, new_tref, new_dict, generate_uuid, Task_register,
    get_task, set_task, modify.
  unfold mbind, M_bind, mret, M_ret. simpl.
  rewrite !lookup_insert_eq. simpl. rewrite !lookup_insert_eq. simpl.
  rewrite !lookup_insert_eq. simpl.
  by rewrite !insert_insert_eq.
Qed.

(** C3: deserializing the mapping [serialize] returns for [t], in
    whatever state, gives a new object that carries [t]'s identifier, the
    one generated while it was reconstructed being replaced, and is the
    registry's entry for it; its name, description, retry and timeout
    settings and trigger are [t]'s. *)
Theorem deserialize_serialize_round_trip (variants : list TaskClass)
    (self : tref) (t : TaskObj) (c : TaskClass) (w : World) :
  heap w !! self = Some t →
  find_variant variants (cls_name (cls t)) = Some c →
  ∃ m, Task_serialize Serializable_serialize self w = Ret m w
    ∧ ∀ w1, ∃ new w2 t2,
        deserialize uuid_of variants m w1 = Ret new w2
        ∧ heap w1 !! new = None
        ∧ heap w2 !! new = Some t2
        ∧ _id t2 = _id t
        ∧ TASK_REGISTRY w2 !! _id t = Some new
        ∧ uuid_counter w2 = S (uuid_counter w1)
        ∧ name t2 = name t ∧ description t2 = description t
        ∧ max_retries t2 = max_retries t ∧ retry_delay t2 = retry_delay t
        ∧ timeout t2 = timeout t ∧ trigger t2 = trigger t.
Proof.
  intros Hself Hc. eexists. split; [by apply Task_serialize_Ret|].
  intros w1. eexists _, _, _.
  split; [by apply deserialize_serialized|]. simpl.
  split; [apply not_elem_of_dom, is_fresh|].
  rewrite !lookup_insert_eq. by repeat split.
Qed.

End Serialization.


(** ** What a successful binding holds *)

Section BindingResult.

Implicit Types (ps sig rest pre : list param) (args : list pyval).
Implicit Types (kwargs : gmap string pyval) (acc : gmap string bound).

(** The parameters the positional loop has passed: each took a positional
    argument, for which no keyword may carry its name, or is [*args]. *)
Lemma bind_positional_split ps args kwargs acc acc' rest :
  bind_positional ps args kwargs acc = inr (acc', rest) →
  ∃ pre, ps = (pre ++ rest)%list
    ∧ (∀ p, p ∈ pre →
         (p_kind p = POSITIONAL_OR_KEYWORD ∧ kwargs !! p_name p = None)
         ∨ p_kind p = VAR_POSITIONAL)
    ∧ (length args ≤ length pre ∨ ∃ q, q ∈ pre ∧ p_kind q = VAR_POSITIONAL)
    ∧ (∀ (i : nat), i < length args →
         (∀ (j : nat), j ≤ i →
            ∃ q, ps !! j = Some q ∧ p_kind q = POSITIONAL_OR_KEYWORD) →
         i < length pre).
Proof.
  revert args acc. induction ps as [|q ps IH]; intros args acc;
    destruct args as [|a args]; simpl; try done.
  - intros [= <- <-]. exists []. split; [done|]. split; [by intros ? ?%elem_of_nil|].
    split; [by left|]. intros; simpl in *; lia.
  - assert (Hkeep : ∃ pre, q :: ps = (pre ++ q :: ps)%list
        ∧ (∀ p, p ∈ pre →
             (p_kind p = POSITIONAL_OR_KEYWORD ∧ kwargs !! p_name p = None)
             ∨ p_kind p = VAR_POSITIONAL)
        ∧ (length (@nil pyval) ≤ length pre
           ∨ ∃ q, q ∈ pre ∧ p_kind q = VAR_POSITIONAL)
        ∧ (∀ (i : nat), i < length (@nil pyval) →
             (∀ (j : nat), j ≤ i →
                ∃ q0, (q :: ps) !! j = Some q0
                      ∧ p_kind q0 = POSITIONAL_OR_KEYWORD) →
             i < length pre)).
    { exists []. split; [done|]. split; [by intros ? ?%elem_of_nil|].
      split; [by left|]. intros; simpl in *; lia. }
    destruct (p_kind q) eqn:Hkq; repeat case_decide; try destruct (p_default q);
      intros ?; simplify_eq; try exact Hkeep.
    all: exists [q]; split; [done|]; split;
      [intros p ->%list_elem_of_singleton; by right|];
      split; [left; simpl; lia|]; intros; simpl in *; lia.
  - destruct (p_kind q) eqn:Hkq; try done.
    + case_decide as Hkw; [done|]. intros Hb.
      destruct (IH _ _ Hb) as (pre & -> & Hpre & Hlen & Hidx).
      exists (q :: pre). split; [done|]. split; [|split].
      * intros p [->|Hp]%elem_of_cons; [|by apply Hpre].
        left. split; [done|]. by apply eq_None_not_Some.
      * destruct Hlen as [Hlen|(q' & Hq' & Hk')].
        -- left. simpl. lia.
        -- right. exists q'. split; [by right|done].
      * intros i Hi Hprefix. destruct i as [|i]; simpl; [lia|].
        apply ->Nat.succ_lt_mono. apply Hidx; [simpl in Hi; lia|].
        intros j Hj. destruct (Hprefix (S j)) as (q0 & Hq0 & Hk0); [lia|].
        by exists q0.
    + intros ?; simplify_eq. exists [q]. split; [done|]. split.
      { intros p ->%list_elem_of_singleton. by right. }
      split; [right; exists q; split; [by left|done]|].
      intros i Hi Hprefix. destruct (Hprefix 0) as (q0 & Hq0 & Hk0); [lia|].
      simpl in Hq0. simplify_eq. congruence.
Qed.



(** What the positional loop stores: a positional argument under its
    parameter, or the tuple of the arguments from its position on under
    [*args]. *)
Lemma bind_positional_entries ps args kwargs acc acc' rest k b :
  bind_positional ps args kwargs acc = inr (acc', rest) →
  acc' !! k = Some b →
  acc !! k = Some b
  ∨ (∃ (i : nat) p a, ps !! i = Some p ∧ p_name p = k
       ∧ p_kind p = POSITIONAL_OR_KEYWORD ∧ args !! i = Some a ∧ b = BArg a)
  ∨ (∃ (i : nat) p, ps !! i = Some p ∧ p_name p = k
       ∧ p_kind p = VAR_POSITIONAL ∧ i < length args ∧ b = BTuple (drop i args)).
Proof.
  revert args acc. induction ps as [|q ps IH]; intros args acc;
    destruct args as [|a args]; simpl; try done.
  - intros [= <- <-] ?. by left.
  - destruct (p_kind q); repeat case_decide; try destruct (p_default q);
      intros ? ?; simplify_eq; by left.
  - destruct (p_kind q) eqn:Hkq; try done.
    + case_decide; [done|]. intros Hb Hk.
      destruct (IH _ _ Hb Hk) as [Hacc|[(i & p & a' & ?)|(i & p & ?)]].
      * destruct (decide (p_name q = k)) as [<-|Hne].
        -- rewrite lookup_insert_eq in Hacc. simplify_eq.
           right. left. by exists 0, q, a.
        -- rewrite lookup_insert_ne in Hacc by done. by left.
      * right. left. exists (S i), p, a'. by destruct_and!.
      * right. right. exists (S i), p. destruct_and!. simpl.
        repeat split; try done. lia.
    + intros ? Hk; simplify_eq.
      destruct (decide (p_name q = k)) as [<-|Hne].
      * rewrite lookup_insert_eq in Hk. simplify_eq.
        right. right. exists 0, q. simpl. repeat split; try done. lia.
      * rewrite lookup_insert_ne in Hk by done. by left.
Qed.

(** *** The keyword loop *)

(** The loop only removes keywords. *)
Lemma bind_keywords_subset ps kwargs kp acc acc' kwargs' kp' k v :
  bind_keywords ps kwargs kp acc = inr (acc', kwargs', kp') →
  kwargs' !! k = Some v → kwargs !! k = Some v.
Proof.
  revert kwargs kp acc. induction ps as [|q ps IH]; intros kwargs kp acc; simpl.
  - by intros [= <- <- <-].
  - intros Hb Hk.
    destruct (p_kind q); try (by eapply IH);
      (destruct (kwargs !! p_name q) eqn:Hq;
       [ eapply lookup_delete_Some, IH; done
       | destruct (p_default q); [by eapply IH|done] ]).
Qed.

(** A keyword that names a parameter of the list is removed. *)
Lemma bind_keywords_popped ps kwargs kp acc acc' kwargs' kp' p :
  bind_keywords ps kwargs kp acc = inr (acc', kwargs', kp') →
  p ∈ ps → starred (p_kind p) = false → kwargs' !! p_name p = None.
Proof.
  revert kwargs kp acc. induction ps as [|q ps IH]; intros kwargs kp acc; simpl.
  - by intros _ ?%elem_of_nil.
  - intros Hb [->|Hin]%elem_of_cons Hstar.
    + destruct (p_kind q); try done;
        (destruct (kwargs !! p_name q) eqn:Hq;
         [ apply eq_None_not_Some; intros [v Hv];
           apply (bind_keywords_subset _ _ _ _ _ _ _ _ _ Hb) in Hv;
           by rewrite lookup_delete_eq in Hv
         | destruct (p_default q); [|done];
           apply eq_None_not_Some; intros [v Hv];
           apply (bind_keywords_subset _ _ _ _ _ _ _ _ _ Hb) in Hv; congruence ]).
    + destruct (p_kind q); try (by eapply IH);
        (destruct (kwargs !! p_name q) eqn:Hq;
         [ by eapply IH
         | destruct (p_default q); [by eapply IH|done] ]).
Qed.

(** What the keyword loop stores: a keyword's value under the parameter it
    names. *)
Lemma bind_keywords_entries ps kwargs kp acc acc' kwargs' kp' k b :
  bind_keywords ps kwargs kp acc = inr (acc', kwargs', kp') →
  acc' !! k = Some b →
  acc !! k = Some b
  ∨ (∃ p v, p ∈ ps ∧ starred (p_kind p) = false ∧ p_name p = k
       ∧ kwargs !! k = Some v ∧ b = BArg v).
Proof.
  revert kwargs kp acc. induction ps as [|q ps IH]; intros kwargs kp acc; simpl.
  - intros [= <- <- <-] ?. by left.
  - intros Hb Hk.
    assert (Hstep : ∀ kwargs0 kp0 acc0,
              bind_keywords ps kwargs0 kp0 acc0 = inr (acc', kwargs', kp') →
              (∀ k' v', kwargs0 !! k' = Some v' → kwargs !! k' = Some v') →
              acc0 !! k = Some b
              ∨ (∃ p v, p ∈ q :: ps ∧ starred (p_kind p) = false ∧ p_name p = k
                   ∧ kwargs !! k = Some v ∧ b = BArg v)).
    { intros kwargs0 kp0 acc0 Hb0 Hsub.
      destruct (IH _ _ _ Hb0 Hk) as [?|(p & v & Hp & ? & ? & Hv & ?)]; [by left|].
      right. exists p, v. split; [by right|]. eauto. }
    assert (Hnamed : starred (p_kind q) = false →
              match kwargs !! p_name q with
              | Some v =>
                  bind_keywords ps (delete (p_name q) kwargs) kp
                    (<[p_name q := BArg v]> acc) = inr (acc', kwargs', kp')
              | None =>
                  p_default q = true
                  ∧ bind_keywords ps kwargs kp acc = inr (acc', kwargs', kp')
              end →
              acc !! k = Some b
              ∨ (∃ p v, p ∈ q :: ps ∧ starred (p_kind p) = false ∧ p_name p = k
                   ∧ kwargs !! k = Some v ∧ b = BArg v)).
    { intros Hstar Hcase. destruct (kwargs !! p_name q) as [v|] eqn:Hq.
      - destruct (Hstep _ _ _ Hcase) as [Hacc|?]; [|  |by right].
        + by intros k' v' [_ ?]%lookup_delete_Some.
        + destruct (decide (p_name q = k)) as [<-|Hne].
          * rewrite lookup_insert_eq in Hacc. simplify_eq.
            right. exists q, v. split; [by left|done].
          * rewrite lookup_insert_ne in Hacc by done. by left.
      - destruct Hcase as [_ Hcase]. by eapply Hstep. }
    destruct (p_kind q) eqn:Hkq; try (by eapply Hstep).
    + apply Hnamed; [done|]. destruct (kwargs !! p_name q); [done|].
      by destruct (p_default q).
    + apply Hnamed; [done|]. destruct (kwargs !! p_name q); [done|].
      by destruct (p_default q).
Qed.



(** A keyword that is gone after the loop named a parameter of the list. *)
Lemma bind_keywords_popped_inv ps kwargs kp acc acc' kwargs' kp' k v :
  bind_keywords ps kwargs kp acc = inr (acc', kwargs', kp') →
  kwargs !! k = Some v → kwargs' !! k = None →
  ∃ p, p ∈ ps ∧ starred (p_kind p) = false ∧ p_name p = k.
Proof.
  intros Hb Hk Hgone.
  destruct (decide (Exists (λ p, starred (p_kind p) = false ∧ p_name p = k) ps))
    as [(p & Hp & ? & ?)%Exists_exists|Hnone]; [by exists p|].
  rewrite (bind_keywords_leftover _ _ _ _ _ _ _ _ _ Hb Hk) in Hgone; [done|].
  intros p Hp Hstar Hname. apply Hnone, Exists_exists. by exists p.
Qed.

(** The two loops store nothing under the capture parameter's name. *)
Lemma bind_loops_no_capture_entry sig args kwargs acc1 rest acc2 kw' kp p :
  wf_signature sig →
  bind_positional sig args kwargs ∅ = inr (acc1, rest) →
  bind_keywords rest kwargs None acc1 = inr (acc2, kw', kp) →
  p ∈ sig → p_kind p = VAR_KEYWORD →
  acc2 !! p_name p = None.
Proof.
  intros Hwf H1 H2 Hp Hkind.
  assert (Hnames : ∀ q, q ∈ sig → p_kind q ≠ VAR_KEYWORD → p_name q ≠ p_name p).
  { intros q Hq Hkq Heq. apply Hkq.
    by rewrite (param_name_inj sig q p Hwf Hq Hp Heq). }
  rewrite (bind_keywords_lookup _ _ _ _ _ _ _ _ H2).
  - by rewrite (bind_positional_lookup _ _ _ _ _ _ _ H1 Hnames).
  - intros q Hq. apply Hnames. by eapply bind_positional_incl.
Qed.

(** The map handed to the flow is what the two loops stored, overlaid
    with the keywords they left. *)
Lemma call_bindings_inr sig args kwargs final :
  wf_signature sig → call_bindings sig args kwargs = inr final →
  ∃ acc1 rest acc2 kw' kp,
    bind_positional sig args kwargs ∅ = inr (acc1, rest)
    ∧ bind_keywords rest kwargs None acc1 = inr (acc2, kw', kp)
    ∧ final = (BArg <$> kw') ∪ acc2
    ∧ (kw' = ∅ ∨ is_Some (get_var_kw_arg sig)).
Proof.
  intros Hwf. unfold call_bindings, bind.
  destruct (bind_positional sig args kwargs ∅) as [e|[acc1 rest]] eqn:H1; [done|].
  destruct (bind_keywords rest kwargs None acc1) as [e|[[acc2 kw'] kp]] eqn:H2;
    [done|].
  intros Hfinal. exists acc1, rest, acc2, kw', kp. split; [done|]. split; [done|].
  case_decide as Hempty.
  - subst kw'. rewrite fmap_empty, (left_id_L ∅ (∪)). split; [|by left].
    unfold expand_var_kw in Hfinal.
    destruct (get_var_kw_arg sig) as [n|] eqn:Hn; [|by simplify_eq].
    apply get_var_kw_arg_Some in Hn as (p & Hp & Hkind & <-).
    rewrite (bind_loops_no_capture_entry _ _ _ _ _ _ _ _ _ Hwf H1 H2 Hp Hkind)
      in Hfinal.
    by simplify_eq.
  - destruct (bind_keywords_param _ _ _ _ _ _ _ H2) as [->|(q & Hq & Hkq & ->)];
      [done|].
    apply (bind_positional_incl _ _ _ _ _ _ _ H1) in Hq.
    destruct (get_var_kw_arg sig) as [n|] eqn:Hn;
      [|by destruct (get_var_kw_arg_None _ _ Hn Hq)].
    split; [|by right].
    apply get_var_kw_arg_Some in Hn as (p & Hp & Hkind & <-).
    rewrite (var_keyword_unique sig p q Hwf Hp Hq Hkind Hkq) in Hfinal.
    unfold expand_var_kw in Hfinal. rewrite lookup_insert_eq in Hfinal.
    rewrite delete_insert_id in Hfinal by
      (by eapply bind_loops_no_capture_entry).
    by simplify_eq.
Qed.

Lemma NoDup_names_split pre rest :
  NoDup (p_name <$> (pre ++ rest)%list) →
  NoDup (p_name <$> rest)
  ∧ ∀ p q, p ∈ pre → q ∈ rest → p_name p ≠ p_name q.
Proof.
  rewrite fmap_app. intros (_ & Hdisj & Hrest)%NoDup_app. split; [done|].
  intros p q Hp Hq Heq. apply (Hdisj (p_name p)).
  - apply list_elem_of_fmap. by exists p.
  - rewrite Heq. apply list_elem_of_fmap. by exists q.
Qed.



(** The final map has no other entries: each one is a keyword argument, a
    positional argument under its parameter, or the tuple of the remaining
    positional arguments under [*args]. *)
Lemma call_bindings_entries sig args kwargs final k b :
  wf_signature sig → call_bindings sig args kwargs = inr final →
  final !! k = Some b →
  (∃ v, kwargs !! k = Some v ∧ b = BArg v)
  ∨ (∃ (i : nat) p a, sig !! i = Some p ∧ p_name p = k
       ∧ p_kind p = POSITIONAL_OR_KEYWORD ∧ args !! i = Some a ∧ b = BArg a)
  ∨ (∃ (i : nat) p, sig !! i = Some p ∧ p_name p = k
       ∧ p_kind p = VAR_POSITIONAL ∧ i < length args ∧ b = BTuple (drop i args)).
Proof.
  intros Hwf Hfinal Hk.
  destruct (call_bindings_inr _ _ _ _ Hwf Hfinal)
    as (acc1 & rest & acc2 & kw' & kp & H1 & H2 & -> & _).
  apply lookup_union_Some_raw in Hk as [Hk|[_ Hk]].
  - rewrite lookup_fmap in Hk. destruct (kw' !! k) as [v|] eqn:Hleft; [|done].
    simpl in Hk. simplify_eq. left. exists v. split; [|done].
    by eapply bind_keywords_subset.
  - destruct (bind_keywords_entries _ _ _ _ _ _ _ _ _ H2 Hk)
      as [Hacc1|(p & v & _ & _ & _ & Hv & ->)]; [|left; by exists v].
    destruct (bind_positional_entries _ _ _ _ _ _ _ _ H1 Hacc1) as [Hempty|?];
      [by rewrite lookup_empty in Hempty|by right].
Qed.


(** A parameter that has a default and receives no argument has no entry:
    defaults are not filled in. *)
Lemma call_bindings_omitted sig args kwargs final (i : nat) p :
  wf_signature sig → call_bindings sig args kwargs = inr final →
  sig !! i = Some p → starred (p_kind p) = false →
  length args ≤ i → kwargs !! p_name p = None →
  final !! p_name p = None.
Proof.
  intros Hwf Hfinal Hi Hstar Hlen Hkw.
  destruct (final !! p_name p) as [b|] eqn:Hb; [exfalso|done].
  assert (Hp : p ∈ sig) by (by eapply list_elem_of_lookup_2).
  destruct (call_bindings_entries _ _ _ _ _ _ Hwf Hfinal Hb)
    as [(v & Hv & _)|[(i' & p' & a & Hi' & Hname & _ & Ha & _)
                     |(i' & p' & Hi' & Hname & Hkind & _)]].
  - congruence.
  - assert (p' = p) as ->
      by (eapply param_name_inj; [done|by eapply list_elem_of_lookup_2|done..]).
    assert (i' = i) as ->.
    { destruct Hwf as [_ Hnd]. eapply NoDup_lookup; [exact Hnd| |].
      - by rewrite list_lookup_fmap, Hi'.
      - by rewrite list_lookup_fmap, Hi. }
    apply lookup_lt_Some in Ha. lia.
  - assert (p' = p) as ->
      by (eapply param_name_inj; [done|by eapply list_elem_of_lookup_2|done..]).
    by rewrite Hkind in Hstar.
Qed.

(** Without a capture parameter every entry is under a declared name. *)
Lemma call_bindings_declared sig args kwargs final k b :
  wf_signature sig → call_bindings sig args kwargs = inr final →
  get_var_kw_arg sig = None →
  final !! k = Some b → k ∈ p_name <$> sig.
Proof.
  intros Hwf Hfinal Hnone Hk.
  destruct (call_bindings_entries _ _ _ _ _ _ Hwf Hfinal Hk)
    as [(v & Hv & _)|[(i & p & a & Hi & <- & _)|(i & p & Hi & <- & _)]].
  - destruct (call_bindings_inr _ _ _ _ Hwf Hfinal)
      as (acc1 & rest & acc2 & kw' & kp & H1 & H2 & _ & [->|[n Hn]]);
      [|congruence].
    destruct (bind_keywords_popped_inv _ _ _ _ _ _ _ k v H2 Hv)
      as (p & Hp & _ & <-); [apply lookup_empty|].
    apply list_elem_of_fmap. exists p. split; [done|].
    by eapply bind_positional_incl.
  - apply list_elem_of_fmap. exists p. split; [done|].
    by eapply list_elem_of_lookup_2.
  - apply list_elem_of_fmap. exists p. split; [done|].
    by eapply list_elem_of_lookup_2.
Qed.

(** *** Why a binding fails *)

Lemma bind_positional_too_many ps args kwargs acc :
  too_many_positional ps args → ∃ e, bind_positional ps args kwargs acc = inl e.
Proof.
  intros (i & Hlen & Hprefix & Hi). revert args acc i Hlen Hprefix Hi.
  induction ps as [|q ps IH]; intros args acc i Hlen Hprefix Hi;
    (destruct args as [|a args]; [simpl in Hlen; lia|]); simpl; [eauto|].
  destruct i as [|i]; simpl in Hi.
  - destruct Hi as [->| ->]; eauto.
  - destruct (Hprefix 0) as (q' & Hq' & Hk'); [lia|]. simpl in Hq'. simplify_eq.
    rewrite Hk'. case_decide; [eauto|]. apply (IH _ _ i); [simpl in Hlen; lia| |done].
    intros j Hj. apply (Hprefix (S j)). lia.
Qed.

Lemma bind_positional_inl ps args kwargs acc e :
  bind_positional ps args kwargs acc = inl e →
  missing_required ps args kwargs ∨ duplicate_binding ps args kwargs
  ∨ too_many_positional ps args.
Proof.
  revert args acc. induction ps as [|q ps IH]; intros args acc;
    destruct args as [|a args]; simpl; try done.
  - intros _. right. right. exists 0. simpl. split; [lia|]. split; [|done].
    intros; lia.
  - intros Hb. left. exists 0, q.
    destruct (p_kind q) eqn:Hkq; repeat case_decide;
      try destruct (p_default q) eqn:Hdef; simplify_eq;
      (split; [done|]; try rewrite Hkq; split; [done|]; split; [done|];
       split; [simpl; intros [_ ?]; lia|by apply eq_None_not_Some]).
  - destruct (p_kind q) eqn:Hkq; try done.
    + case_decide as Hkw.
      { intros _. right. left. exists 0, q. simpl. repeat split; try done. lia. }
      intros Hb.
      destruct (IH _ _ Hb) as [(i & p & Hi & ? & ? & Hpos & ?)
                              |[(i & p & Hi & ? & ? & ?)
                               |(i & Hlen & Hprefix & Hi)]].
      * left. exists (S i), p. simpl. repeat split; try done.
        intros [? ?]. apply Hpos. split; [done|lia].
      * right. left. exists (S i), p. simpl. repeat split; try done. lia.
      * right. right. exists (S i). simpl. split; [lia|]. split; [|done].
        intros [|j] Hj; simpl; [by exists q|]. apply Hprefix. lia.
    + intros _. right. right. exists 0. simpl. split; [lia|].
      split; [intros; lia|by left].
    + intros _. right. right. exists 0. simpl. split; [lia|].
      split; [intros; lia|by right].
Qed.

Lemma bind_keywords_inl ps kwargs kp acc e :
  bind_keywords ps kwargs kp acc = inl e → NoDup (p_name <$> ps) →
  ∃ p, p ∈ ps ∧ starred (p_kind p) = false ∧ p_default p = false
     ∧ kwargs !! p_name p = None.
Proof.
  revert kwargs kp acc. induction ps as [|q ps IH]; intros kwargs kp acc; simpl;
    [done|].
  intros Hb [Hq Hnd]%NoDup_cons.
  assert (Hstep : ∀ kwargs0 kp0 acc0,
            bind_keywords ps kwargs0 kp0 acc0 = inl e →
            (∀ p, p ∈ ps → kwargs0 !! p_name p = None → kwargs !! p_name p = None) →
            ∃ p, p ∈ q :: ps ∧ starred (p_kind p) = false ∧ p_default p = false
               ∧ kwargs !! p_name p = None).
  { intros kwargs0 kp0 acc0 Hb0 Hsame.
    destruct (IH _ _ _ Hb0 Hnd) as (p & Hp & ? & ? & ?). exists p.
    split; [by right|]. repeat split; try done. by apply Hsame. }
  assert (Hnamed : starred (p_kind q) = false →
            match kwargs !! p_name q with
            | Some v =>
                bind_keywords ps (delete (p_name q) kwargs) kp
                  (<[p_name q := BArg v]> acc) = inl e
            | None =>
                if p_default q then bind_keywords ps kwargs kp acc = inl e
                else True
            end →
            ∃ p, p ∈ q :: ps ∧ starred (p_kind p) = false ∧ p_default p = false
               ∧ kwargs !! p_name p = None).
  { intros Hstar Hcase. destruct (kwargs !! p_name q) as [v|] eqn:Hkq.
    - eapply Hstep; [done|]. intros p Hp Hnone.
      rewrite lookup_delete_ne in Hnone; [done|].
      intros Heq. apply Hq. rewrite Heq. apply list_elem_of_fmap. by exists p.
    - destruct (p_default q) eqn:Hdef; [by eapply Hstep|].
      exists q. split; [by left|done]. }
  destruct (p_kind q) eqn:Hkq; try (by eapply Hstep).
  - apply Hnamed; [done|]. destruct (kwargs !! p_name q); [done|].
    by destruct (p_default q).
  - apply Hnamed; [done|]. destruct (kwargs !! p_name q); [done|].
    by destruct (p_default q).
Qed.

Lemma bind_keywords_param_Some ps kwargs kp acc acc' kwargs' kp' :
  bind_keywords ps kwargs kp acc = inr (acc', kwargs', kp') →
  is_Some kp ∨ (∃ p, p ∈ ps ∧ p_kind p = VAR_KEYWORD) →
  is_Some kp'.
Proof.
  revert kwargs kp acc. induction ps as [|q ps IH]; intros kwargs kp acc; simpl.
  - intros [= <- <- <-] [?|(p & ?%elem_of_nil & _)]; done.
  - intros Hb Hsome.
    assert (Hstep : ∀ kwargs0 acc0,
              bind_keywords ps kwargs0 kp acc0 = inr (acc', kwargs', kp') →
              p_kind q ≠ VAR_KEYWORD → is_Some kp').
    { intros kwargs0 acc0 Hb0 Hkq. eapply IH; [done|].
      destruct Hsome as [?|(p & [->|Hp]%elem_of_cons & Hk)]; [by left|done|].
      right. by exists p. }
    destruct (p_kind q) eqn:Hkq.
    + destruct (kwargs !! p_name q); [by eapply Hstep|].
      destruct (p_default q); [by eapply Hstep|done].
    + by eapply Hstep.
    + destruct (kwargs !! p_name q); [by eapply Hstep|].
      destruct (p_default q); [by eapply Hstep|done].
    + eapply IH; [done|]. left. by eexists.
Qed.

Lemma get_var_kw_arg_None_intro sig :
  (∀ p, p ∈ sig → p_kind p ≠ VAR_KEYWORD) → get_var_kw_arg sig = None.
Proof.
  intros Hall. destruct (get_var_kw_arg sig) as [n|] eqn:Hn; [|done].
  apply get_var_kw_arg_Some in Hn as (p & Hp & Hk & _). by destruct (Hall p Hp).
Qed.

(** A binding fails only for one of four reasons. *)
Lemma bind_inl sig args kwargs e :
  wf_signature sig → bind sig args kwargs = inl e →
  unbindable sig args kwargs ∨ too_many_positional sig args.
Proof.
  intros Hwf. pose proof Hwf as [Hord Hnd]. unfold bind.
  destruct (bind_positional sig args kwargs ∅) as [e1|[acc1 rest]] eqn:H1.
  { intros _. destruct (bind_positional_inl _ _ _ _ _ H1) as [?|[?|?]];
      [left; by left|left; right; by left|by right]. }
  destruct (bind_positional_split _ _ _ _ _ _ H1) as (pre & Hsig & Hpre & Hlen & _).
  pose proof Hnd as Hnd'. rewrite Hsig in Hnd'.
  apply NoDup_names_split in Hnd' as [Hndrest Hdisj].
  destruct (bind_keywords rest kwargs None acc1) as [e2|[[acc2 kw'] kp]] eqn:H2.
  { intros _. left. left.
    destruct (bind_keywords_inl _ _ _ _ _ H2 Hndrest) as (p & Hp & Hstar & Hdef & Hkw).
    apply list_elem_of_lookup_1 in Hp as [i Hi].
    exists (length pre + i), p.
    split; [by rewrite Hsig, lookup_app_r, Nat.add_comm, Nat.add_sub by lia|].
    repeat split; try done. intros [Hkind Hlt].
    destruct Hlen as [Hlen|(q & [j Hj]%list_elem_of_lookup_1 & Hkq)]; [lia|].
    assert (j < length pre) by (by eapply lookup_lt_Some).
    pose proof (kinds_ordered_starred_strict sig j (length pre + i) q p Hord) as Hr.
    rewrite Hkq, Hkind in Hr. simpl in Hr. cut (1 < 0); [lia|]. apply Hr.
    - by rewrite Hsig, lookup_app_l.
    - by rewrite Hsig, lookup_app_r, Nat.add_comm, Nat.add_sub by lia.
    - lia.
    - done. }
  case_decide as Hempty; [done|]. destruct kp as [n|]; [done|]. intros _.
  left. right. right. split.
  - apply get_var_kw_arg_None_intro. intros p Hp Hk.
    rewrite Hsig in Hp. apply elem_of_app in Hp as [Hp|Hp].
    + destruct (Hpre p Hp) as [[? _]|?]; congruence.
    + destruct (bind_keywords_param_Some _ _ _ _ _ _ _ H2) as [? [=]].
      right. by exists p.
  - destruct (map_choose _ Hempty) as (k & v & Hk). exists k.
    split; [exists v; by eapply bind_keywords_subset|].
    intros p Hp Hstar Hname. rewrite Hsig in Hp.
    apply elem_of_app in Hp as [Hp|Hp].
    + destruct (Hpre p Hp) as [[_ Hnone]|Hvar]; [|by rewrite Hvar in Hstar].
      apply (bind_keywords_subset _ _ _ _ _ _ _ _ _ H2) in Hk. congruence.
    + pose proof (bind_keywords_popped _ _ _ _ _ _ _ _ H2 Hp Hstar). congruence.
Qed.

End BindingResult.

(** ** Calls, by their arguments *)

Section CallResult.

Implicit Types (sig : list param) (args : list pyval).
Implicit Types (kwargs : gmap string pyval).

(** [Task.__call__] refuses a keyword named [self], raises what the
    binding raises, and otherwise hands the binding map to the flow. *)
Lemma Task_call_bindings (self : tref) (t : TaskObj) sig args kwargs (w : World) :
  heap w !! self = Some t →
  signature_bound_method (cls_run (cls t)) = inr sig →
  Task_call self args kwargs w
  = if decide (is_Some (kwargs !! "self"))
    then Raise (TypeError (MultipleValues "self")) w
    else match call_bindings sig args kwargs with
         | inl e => Raise (TypeError e) w
         | inr final =>
             (call_flow ≫= λ flow, Flow_set_dependencies flow self final) w
         end.
Proof.
  intros Hself Hsig. unfold Task_call, call_bindings.
  case_decide; [done|].
  rewrite (bind_Ret _ _ _ _ _ (get_task_Some _ _ _ Hself)).
  unfold run_signature. rewrite Hsig. simpl.
  unfold mbind at 1, M_bind at 1. simpl.
  unfold mbind at 1, M_bind at 1.
  destruct (bind sig args kwargs) as [e|callargs]; [done|]. simpl.
  unfold mbind at 1, M_bind at 1.
  by destruct (expand_var_kw (get_var_kw_arg sig) callargs).
Qed.

Lemma call_bindings_total sig args kwargs :
  wf_signature sig →
  ¬ (unbindable sig args kwargs ∨ too_many_positional sig args) →
  ∃ final, call_bindings sig args kwargs = inr final.
Proof.
  intros Hwf Hgood. unfold call_bindings.
  destruct (bind sig args kwargs) as [e|callargs] eqn:Hbind.
  { destruct Hgood. by eapply bind_inl. }
  unfold expand_var_kw. destruct (get_var_kw_arg sig) as [n|] eqn:Hn; [|eauto].
  destruct (bind_var_kw_entry _ _ _ _ _ Hwf Hbind Hn) as [->|[kw ->]]; eauto.
Qed.

(** A call raises the binding error exactly when a keyword is named
    [self], a required parameter is left without a value, a parameter is
    given twice, a keyword names no parameter and nothing captures it, or
    there are more positional arguments than parameters to take them.  In
    every other case the arguments bind and the call goes on to the
    flow. *)
Theorem call_raises_iff_unbindable (self : tref) (t : TaskObj) sig args kwargs
    (w : World) :
  heap w !! self = Some t →
  signature_bound_method (cls_run (cls t)) = inr sig →
  wf_signature sig →
  (is_Some (kwargs !! "self") ∨ unbindable sig args kwargs
   ∨ too_many_positional sig args →
   ∃ e, Task_call self args kwargs w = Raise e w ∧ is_binding_error e = true)
  ∧ (¬ (is_Some (kwargs !! "self") ∨ unbindable sig args kwargs
        ∨ too_many_positional sig args) →
     ∃ final, call_bindings sig args kwargs = inr final
       ∧ Task_call self args kwargs w
         = (call_flow ≫= λ flow, Flow_set_dependencies flow self final) w).
Proof.
  intros Hself Hsig Hwf.
  rewrite (Task_call_bindings _ _ _ _ _ _ Hself Hsig). split.
  - intros Hbad. case_decide as Hkw; [by eexists|].
    assert (∃ e, bind sig args kwargs = inl e) as [e He].
    { destruct Hbad as [?|[Hbad|Hmany]]; [done|by apply bind_unbindable|].
      unfold bind.
      destruct (bind_positional_too_many sig args kwargs ∅ Hmany) as [e ->].
      eauto. }
    exists (TypeError e). unfold call_bindings. rewrite He.
    split; [done|]. by eapply bind_error.
  - intros Hgood. rewrite decide_False by (intros ?; apply Hgood; by left).
    destruct (call_bindings_total sig args kwargs Hwf) as [final Hfinal].
    { intros ?. apply Hgood. by right. }
    exists final. by rewrite Hfinal.
Qed.


(** The map handed to the flow (which a call reaches unless a keyword is
    named [self]) has no entry that is not an argument of the call: no
    default value is filled in, so a parameter with a default that is
    given no argument gets no entry. *)
Theorem call_entries_are_arguments (self : tref) (t : TaskObj) sig args kwargs
    final (w : World) :
  heap w !! self = Some t →
  signature_bound_method (cls_run (cls t)) = inr sig →
  wf_signature sig →
  call_bindings sig args kwargs = inr final →
  (kwargs !! "self" = None →
   Task_call self args kwargs w
   = (call_flow ≫= λ flow, Flow_set_dependencies flow self final) w)
  ∧ (∀ k b, final !! k = Some b →
       (∃ v, kwargs !! k = Some v ∧ b = BArg v)
       ∨ (∃ (i : nat) p a, sig !! i = Some p ∧ p_name p = k
            ∧ p_kind p = POSITIONAL_OR_KEYWORD ∧ args !! i = Some a
            ∧ b = BArg a)
       ∨ (∃ (i : nat) p, sig !! i = Some p ∧ p_name p = k
            ∧ p_kind p = VAR_POSITIONAL ∧ i < length args
            ∧ b = BTuple (drop i args)))
  ∧ (∀ (i : nat) p, sig !! i = Some p → starred (p_kind p) = false →
       length args ≤ i → kwargs !! p_name p = None →
       final !! p_name p = None).
Proof.
  intros Hself Hsig Hwf Hfinal.
  rewrite (Task_call_bindings _ _ _ _ _ _ Hself Hsig), Hfinal.
  split; [intros Hnoself; by rewrite decide_False
            by (rewrite Hnoself; by intros [? ?])|].
  split.
  - intros k b. by eapply call_bindings_entries.
  - intros i p. by eapply call_bindings_omitted.
Qed.

(** When the work function has no capture parameter, every label of the
    map handed to the flow is one of the names [inputs()] returns. *)
Theorem call_labels_are_inputs (self : tref) (t : TaskObj) sig args kwargs
    final (w : World) :
  heap w !! self = Some t →
  signature_bound_method (cls_run (cls t)) = inr sig →
  wf_signature sig →
  get_var_kw_arg sig = None →
  call_bindings sig args kwargs = inr final →
  ∃ inputs, Task_inputs self w = Ret inputs w
    ∧ ∀ k b, final !! k = Some b → k ∈ inputs.
Proof.
  intros Hself Hsig Hwf Hnone Hfinal. exists (p_name <$> sig). split.
  - unfold Task_inputs.
    rewrite (bind_Ret _ _ _ _ _ (get_task_Some _ _ _ Hself)).
    unfold run_signature. by rewrite Hsig.
  - intros k b. by eapply call_bindings_declared.
Qed.

(** A task whose work function declares no parameter besides the instance,
    as [Task] and [Parameter] do, can only be called without arguments:
    any argument raises the binding error. *)
Theorem call_without_parameters (self : tref) (t : TaskObj) args kwargs
    (w : World) :
  heap w !! self = Some t →
  cls_run (cls t) = [self_param] →
  if decide (args = [] ∧ kwargs = ∅)
  then Task_call self args kwargs w
       = (call_flow ≫= λ flow, Flow_set_dependencies flow self ∅) w
  else ∃ e, Task_call self args kwargs w = Raise e w
          ∧ is_binding_error e = true.
Proof.
  intros Hself Hrun.
  rewrite (Task_call_bindings self t [] args kwargs w Hself)
    by (by rewrite Hrun).
  unfold call_bindings, bind. case_decide as Hcase.
  - destruct Hcase as [-> ->]. simpl.
    rewrite decide_False by (rewrite lookup_empty; by intros [? ?]).
    by rewrite decide_True.
  - case_decide; [by eexists|].
    destruct args as [|a args]; simpl; [|by eexists].
    rewrite decide_False by (intros ->; by apply Hcase). by eexists.
Qed.

End CallResult.

(** ** The registry under assignment, construction and copy *)

Section RegistryUse.

Variable uuid_of : nat → string.

(** Assigning an identifier only adds to the registry: every other entry
    stays, also the one under the identifier the task had before, which
    now leads to a task that no longer carries it. *)
Theorem id_assignment_keeps_entries (self : tref) (x : string) (t : TaskObj)
    (w : World) :
  heap w !! self = Some t →
  ∃ w', Task_id_set self x w = Ret () w'
    ∧ (∀ k, k ≠ x → TASK_REGISTRY w' !! k = TASK_REGISTRY w !! k)
    ∧ (∀ (r : tref), r ≠ self → heap w' !! r = heap w !! r)
    ∧ (_id t ≠ x → TASK_REGISTRY w !! _id t = Some self →
       TASK_REGISTRY w' !! _id t = Some self
       ∧ Task_id self w' = Ret x w').
Proof.
  intros Hself. eexists. split; [by apply Task_id_set_Ret|]. simpl.
  split; [intros k Hk; by rewrite lookup_insert_ne|].
  split; [intros r Hr; by rewrite lookup_insert_ne|].
  intros Hne Hold. split; [by rewrite lookup_insert_ne|].
  unfold Task_id, get_task, mbind, M_bind. simpl. by rewrite lookup_insert_eq.
Qed.

(** The setter does not check that the identifier is free: given the
    identifier of another live task, it leaves two tasks with the same
    identifier, and the registry then leads to the one assigned last. *)
Theorem id_assignment_can_shadow (r1 r2 : tref) (t1 t2 : TaskObj) (w : World) :
  r1 ≠ r2 → heap w !! r1 = Some t1 → heap w !! r2 = Some t2 →
  ∃ w', Task_id_set r2 (_id t1) w = Ret () w'
    ∧ heap w' !! r1 = Some t1
    ∧ heap w' !! r2 = Some (with_id (_id t1) t2)
    ∧ TASK_REGISTRY w' !! _id t1 = Some r2.
Proof.
  intros Hne H1 H2. eexists. split; [by apply Task_id_set_Ret|]. simpl.
  by rewrite lookup_insert_ne, !lookup_insert_eq.
Qed.

(** After [copy()] the registry returns the copy for the original's
    identifier as well: the original is still alive and still carries that
    identifier, but is no longer found under it. *)
Theorem copy_takes_over_registry_entry (self : tref) (t : TaskObj) (w : World) :
  heap w !! self = Some t →
  ∃ new w', Task_copy uuid_of self w = Ret new w'
    ∧ new ≠ self
    ∧ heap w' !! self = Some t
    ∧ TASK_REGISTRY w' !! _id t = Some new
    ∧ (TASK_REGISTRY w' !! uuid_of (uuid_counter w) = Some new).
Proof.
  intros Hself.
  assert (Hfresh : heap w !! fresh (dom (heap w)) = None)
    by apply not_elem_of_dom, is_fresh.
  assert (Hne : fresh (dom (heap w)) ≠ self) by congruence.
  eexists _, _. split; [by apply Task_copy_Ret|]. simpl.
  split; [done|]. split; [by rewrite lookup_insert_ne|].
  split; [|by rewrite lookup_insert_eq].
  destruct (decide (uuid_of (uuid_counter w) = _id t)) as [->|Hid].
  - by rewrite lookup_insert_eq.
  - by rewrite lookup_insert_ne, lookup_insert_eq.
Qed.

Lemma ids_distinct_insert (w w' : World) (new : tref) (t : TaskObj) :
  ids_issued uuid_of w → ids_distinct w →
  heap w !! new = None →
  heap w' = <[new := t]> (heap w) →
  _id t = uuid_of (uuid_counter w) →
  ids_distinct w'.
Proof.
  intros Hissued Hdist Hnew Hheap Hid r1 r2 t1 t2 H1 H2 Heq.
  rewrite Hheap in H1, H2.
  destruct (decide (r1 = new)) as [->|Hn1], (decide (r2 = new)) as [->|Hn2];
    [done| | |].
  - rewrite lookup_insert_eq in H1. rewrite lookup_insert_ne in H2 by done.
    simplify_eq. destruct (Hissued r2 t2 (uuid_counter w) H2); [lia|congruence].
  - rewrite lookup_insert_eq in H2. rewrite lookup_insert_ne in H1 by done.
    simplify_eq. destruct (Hissued r1 t1 (uuid_counter w) H1); [lia|congruence].
  - rewrite lookup_insert_ne in H1, H2 by done. by eapply Hdist.
Qed.

(** As long as identifiers come from [generate_uuid] and it never repeats,
    construction and [copy()] keep the identifiers of the live tasks
    pairwise distinct. *)
Theorem construction_and_copy_keep_ids_distinct (w : World) :
  Inj (=) (=) uuid_of → ids_issued uuid_of w → ids_distinct w →
  (∀ c attrs a, args_ok a w → ambient_flow_ok w →
     ∃ self w', Task_init uuid_of c attrs a w = Ret self w'
       ∧ ids_issued uuid_of w' ∧ ids_distinct w')
  ∧ (∀ (self : tref) t, heap w !! self = Some t →
     ∃ new w', Task_copy uuid_of self w = Ret new w'
       ∧ ids_issued uuid_of w' ∧ ids_distinct w').
Proof.
  intros Hinj Hissued Hdist.
  assert (Hfresh : heap w !! fresh (dom (heap w)) = None)
    by apply not_elem_of_dom, is_fresh.
  split.
  - intros c attrs a Hargs Hflow.
    destruct (Task_init_Ret uuid_of c attrs a w Hargs Hflow)
      as (w' & t & Hret & Hheap & _ & Hctr & _ & _ & _ & Hid & _).
    exists (fresh (dom (heap w))), w'. split; [done|]. split.
    + by eapply ids_issued_insert.
    + by eapply ids_distinct_insert.
  - intros self t Hself. eexists _, _.
    split; [by apply Task_copy_Ret|]. split.
    + by eapply (ids_issued_insert uuid_of Hinj w).
    + by eapply (ids_distinct_insert w).
Qed.

End RegistryUse.

(** ** Constructor arguments *)

Section Arguments.

Variable uuid_of : nat → string.

(** [Task.__init__] with where its [secrets] come from. *)
Lemma Task_init_secrets (c : TaskClass) (attrs : option ParameterAttrs)
    (a : InitArgs) (w : World) :
  args_ok a w → ambient_flow_ok w →
  ∃ w' t s w1,
    secrets_or_new (arg_secrets a) (set_uuid_counter (S (uuid_counter w)) w)
    = Ret s w1
    ∧ Task_init uuid_of c attrs a w = Ret (fresh (dom (heap w))) w'
    ∧ heap w' !! fresh (dom (heap w)) = Some t
    ∧ secrets t = s
    ∧ dicts w' = dicts w1.
Proof.
  intros Hargs Hflow.
  destruct (secrets_or_new_Ret a (set_uuid_counter (S (uuid_counter w)) w) Hargs)
    as (s & w1 & Hs & Hh1 & Hr1 & Hf1 & Hc1 & Hu1 & Hv1 & Hd1).
  unfold Task_init, new_tref, generate_uuid, Task_register, get_task,
    set_task, modify, Context_get_flow, Flow_add_task.
  unfold mbind, M_bind, mret, M_ret. rewrite Hs. simpl.
  rewrite !lookup_insert_eq. simpl. rewrite !lookup_insert_eq. simpl.
  simpl in Hh1, Hr1, Hf1, Hc1, Hu1, Hv1.
  rewrite Hc1.
  destruct (ctx_flow (context w)) as [f|] eqn:Hctx.
  - destruct (Hflow f Hctx) as [fl Hfl]. simpl. rewrite Hf1, Hfl.
    eexists _, _, s, w1. split; [done|]. split; [done|]. simpl.
    by rewrite lookup_insert_eq.
  - eexists _, _, s, w1. split; [done|]. split; [done|]. simpl.
    by rewrite lookup_insert_eq.
Qed.

(** [secrets or {}]: a non-empty dict passed as [secrets] is stored as it
    is, the same object the caller holds; an empty one is not stored, the
    task gets a new dict of its own, so what the caller later puts into
    the dict it passed never reaches the task. *)
Theorem init_secrets_shared_unless_empty (c : TaskClass)
    (attrs : option ParameterAttrs) (a : InitArgs) (d : dref)
    (m : gmap string pyval) (w : World) :
  arg_secrets a = Some d → dicts w !! d = Some m → ambient_flow_ok w →
  ∃ self w' t,
    Task_init uuid_of c attrs a w = Ret self w'
    ∧ heap w' !! self = Some t
    ∧ dicts w' !! d = Some m
    ∧ if decide (m = ∅)
      then secrets t ≠ d ∧ dicts w !! secrets t = None
           ∧ dicts w' !! secrets t = Some ∅
      else secrets t = d ∧ dicts w' = dicts w.
Proof.
  intros Hd Hm Hflow.
  assert (Hargs : args_ok a w) by (intros d' ?; by simplify_eq).
  destruct (Task_init_secrets c attrs a w Hargs Hflow)
    as (w' & t & s & w1 & Hs & Hinit & Hheap & Hsec & Hdicts).
  exists (fresh (dom (heap w))), w', t. split; [done|]. split; [done|].
  unfold secrets_or_new, new_dict in Hs. rewrite Hd in Hs. simpl in Hs.
  rewrite Hm in Hs. rewrite Hdicts, Hsec.
  assert (Hfresh : dicts w !! fresh (dom (dicts w)) = None)
    by apply not_elem_of_dom, is_fresh.
  case_decide; simplify_eq; simpl.
  - assert (fresh (dom (dicts w)) ≠ d) by congruence.
    rewrite <- Hs. by rewrite lookup_insert_ne, lookup_insert_eq.
  - done.
Qed.

(** A task's name is never empty: a missing or empty [name] argument gives
    the class name, any other is taken as it is. *)
Theorem init_name_never_empty (c : TaskClass) (attrs : option ParameterAttrs)
    (a : InitArgs) (w : World) :
  args_ok a w → ambient_flow_ok w → cls_name c ≠ EmptyString →
  ∃ self w' t,
    Task_init uuid_of c attrs a w = Ret self w'
    ∧ heap w' !! self = Some t
    ∧ name t ≠ EmptyString
    ∧ match arg_name a with
      | Some (String ch s) => name t = String ch s
      | _ => name t = cls_name c
      end.
Proof.
  intros Hargs Hflow Hcls.
  destruct (Task_init_Ret uuid_of c attrs a w Hargs Hflow)
    as (w' & t & Hret & Hheap & _ & _ & _ & _ & _ & _ & Hname & _).
  exists (fresh (dom (heap w))), w', t. split; [done|].
  split; [by rewrite Hheap, lookup_insert_eq|]. rewrite Hname.
  unfold name_or. by destruct (arg_name a) as [[|ch s]|].
Qed.

(** A [Parameter] constructed with a default other than [None] is not
    required, whatever [required] was passed, and its [run] never raises
    [FAIL]: it returns the runtime value, or the default when there is
    none.  With the default [None] the [required] argument is kept. *)
Theorem parameter_default_overrides_required (n : string) (dflt : pyval)
    (req : bool) (w : World) :
  ambient_flow_ok w →
  ∃ self w' t,
    Parameter_init uuid_of n dflt req w = Ret self w'
    ∧ heap w' !! self = Some t
    ∧ param_attrs t
      = Some {| required := if decide (dflt = PNone) then req else false;
                default_value := dflt |}
    ∧ (dflt ≠ PNone →
       ∀ w2, heap w2 !! self = Some t →
         Parameter_run self w2
         = Ret (default dflt
                  (default ∅ (ctx_parameters (context w2)) !! name t)) w2).
Proof.
  intros Hflow. unfold Parameter_init.
  assert (Hargs : args_ok (with_arg_name (Some n) no_args) w)
    by (intros d Hd; discriminate Hd).
  destruct (Task_init_Ret uuid_of Parameter_class
              (Some {| required := if decide (dflt = PNone) then req else false;
                       default_value := dflt |})
              (with_arg_name (Some n) no_args) w Hargs Hflow)
    as (w' & t & Hret & Hheap & _ & _ & _ & _ & _ & _ & _ & _
        & _ & _ & _ & _ & _ & _ & Hattrs).
  exists (fresh (dom (heap w))), w', t. split; [done|].
  split; [by rewrite Hheap, lookup_insert_eq|]. split; [done|].
  intros Hdflt w2 H2. unfold Parameter_run.
  rewrite (bind_Ret _ _ _ _ _ (get_task_Some _ _ _ H2)), Hattrs.
  by rewrite decide_False.
Qed.

End Arguments.

(** ** Serialized mappings *)

Section Mappings.

Variable Serializable_serialize : TaskObj → gmap string pyval.

(** The task's nine entries replace whatever [Serializable] holds under
    the same keys, and every other entry of [Serializable]'s mapping is
    passed on as it is. *)
Theorem serialize_overrides_base (self : tref) (t : TaskObj) (w : World) :
  heap w !! self = Some t →
  ∃ m, Task_serialize Serializable_serialize self w = Ret m w
    ∧ m !! "name" = Some (PStr (name t))
    ∧ m !! "id" = Some (PStr (_id t))
    ∧ m !! "description" = Some (opt_str (description t))
    ∧ m !! "max_retries" = Some (PInt (max_retries t))
    ∧ m !! "retry_delay" = Some (PTimedelta (retry_delay t))
    ∧ m !! "timeout" = Some (opt_timedelta (timeout t))
    ∧ m !! "trigger" = Some (PFunction (trigger t))
    ∧ (∀ k, k ∉ task_keys → m !! k = Serializable_serialize t !! k).
Proof.
  intros Hself. eexists. split; [by apply Task_serialize_Ret|].
  pose proof (update_task_fields_lookup t (Serializable_serialize t))
    as (? & ? & ? & ? & ? & ? & ? & _).
  repeat (split; [done|]).
  intros k Hk. unfold update_task_fields.
  rewrite !lookup_insert_ne; [done|..];
    intros <-; apply Hk; unfold task_keys; simpl;
    rewrite !elem_of_union, !elem_of_singleton; tauto.
Qed.

(** [after_deserialize] reads the [id] entry only.  Without one it raises
    [KeyError] and nothing has changed; given the mapping that [serialize]
    returns for a task [other], whatever [Serializable] contributes, it
    gives [self] the identifier of [other] and the registry's entry for
    it, while [other] still carries that identifier too. *)
Theorem after_deserialize_takes_id (self other : tref) (t o : TaskObj)
    (w : World) :
  heap w !! self = Some t → heap w !! other = Some o → self ≠ other →
  (∀ (m : gmap string pyval), m !! "id" = None →
     Task_after_deserialize self m w = Raise (KeyError "id") w)
  ∧ ∃ m w', Task_serialize Serializable_serialize other w = Ret m w
      ∧ Task_after_deserialize self m w = Ret () w'
      ∧ heap w' !! self = Some (with_id (_id o) t)
      ∧ heap w' !! other = Some o
      ∧ TASK_REGISTRY w' !! _id o = Some self.
Proof.
  intros Hself Hother Hne. split.
  - intros m Hm. unfold Task_after_deserialize. by rewrite Hm.
  - pose proof (update_task_fields_lookup o (Serializable_serialize o))
      as (_ & Hid & _).
    eexists _, _. split; [by apply Task_serialize_Ret|].
    unfold Task_after_deserialize. rewrite Hid.
    rewrite (bind_Ret _ _ _ _ _ (Task_id_set_Ret self (_id o) t w Hself)).
    rewrite (Task_register_Ret _ (with_id (_id o) t))
      by (simpl; by rewrite lookup_insert_eq).
    split; [done|]. simpl.
    by rewrite lookup_insert_eq, lookup_insert_ne, lookup_insert_eq.
Qed.

End Mappings.

(** ** Calls outside a flow *)

Section NoAmbientFlow.

(** Without an ambient flow a call that binds returns the handle of a flow
    created for it, and leaves tasks, registry and context as they were. *)
Lemma Task_call_new_flow (self : tref) (t : TaskObj) sig args kwargs final
    (w : World) :
  heap w !! self = Some t →
  signature_bound_method (cls_run (cls t)) = inr sig →
  kwargs !! "self" = None →
  call_bindings sig args kwargs = inr final →
  ctx_flow (context w) = None →
  Task_call self args kwargs w
  = Ret {| tr_task := self; tr_flow := fresh (dom (flows w)) |}
      (set_flows (<[fresh (dom (flows w))
                    := add_dependencies self final empty_flow]> (flows w)) w).
Proof.
  intros Hself Hsig Hnoself Hfinal Hctx.
  rewrite (Task_call_bindings _ _ _ _ _ _ Hself Hsig), Hfinal.
  rewrite decide_False by (rewrite Hnoself; by intros [? ?]).
  unfold call_flow, Context_get_flow, Flow_new, Flow_set_dependencies.
  unfold mbind, M_bind. rewrite Hctx. simpl.
  rewrite lookup_insert_eq. by rewrite insert_insert_eq.
Qed.

(** Calls made while no flow is being built (calls that bind, with no
    keyword named [self]) do not build one graph: each call gets a flow of
    its own, and the flow of the first call holds nothing of the second. *)
Theorem calls_without_ambient_flow_use_separate_flows (r1 r2 : tref)
    (t1 t2 : TaskObj) sig1 sig2 args1 args2 kwargs1 kwargs2 final1 final2
    (w : World) :
  heap w !! r1 = Some t1 → heap w !! r2 = Some t2 →
  signature_bound_method (cls_run (cls t1)) = inr sig1 →
  signature_bound_method (cls_run (cls t2)) = inr sig2 →
  kwargs1 !! "self" = None → kwargs2 !! "self" = None →
  call_bindings sig1 args1 kwargs1 = inr final1 →
  call_bindings sig2 args2 kwargs2 = inr final2 →
  ctx_flow (context w) = None →
  ∃ f1 w1 f2 w2,
    Task_call r1 args1 kwargs1 w = Ret {| tr_task := r1; tr_flow := f1 |} w1
    ∧ Task_call r2 args2 kwargs2 w1 = Ret {| tr_task := r2; tr_flow := f2 |} w2
    ∧ f1 ≠ f2
    ∧ flows w2 !! f1 = Some (add_dependencies r1 final1 empty_flow)
    ∧ flows w2 !! f2 = Some (add_dependencies r2 final2 empty_flow).
Proof.
  intros H1 H2 Hsig1 Hsig2 Hno1 Hno2 Hfinal1 Hfinal2 Hctx.
  eexists _, _, _, _.
  split; [by eapply Task_call_new_flow|].
  split; [by eapply Task_call_new_flow|]. simpl.
  set (f1 := fresh (dom (flows w))).
  set (fs := <[f1 := add_dependencies r1 final1 empty_flow]> (flows w)).
  assert (Hne : fresh (dom fs) ≠ f1).
  { intros Heq. apply (is_fresh (dom fs)). rewrite Heq. apply elem_of_dom.
    unfold fs. by rewrite lookup_insert_eq. }
  split; [done|]. rewrite lookup_insert_eq, lookup_insert_ne by done.
  unfold fs. by rewrite lookup_insert_eq.
Qed.

End NoAmbientFlow.

(** ** Identifiers: where they come from *)

Section Identity.

Variable uuid_of : nat → string.
Variable Serializable_serialize : TaskObj → gmap string pyval.







(** *** Which methods write identifiers *)








End Identity.

(** * The statements on sample states *)

Lemma world1_task : heap world1 !! 0 = Some (first_task Task_class None "Task").
Proof. vm_compute. reflexivity. Qed.

Lemma world_add_task : heap world_add !! 0 = Some (first_task Add_class None "Add").
Proof. vm_compute. reflexivity. Qed.

Lemma world_collect_task :
  heap world_collect !! 0 = Some (first_task Collect_class None "Collect").
Proof. vm_compute. reflexivity. Qed.

Lemma world_param_task :
  heap world_param !! 0 = Some (first_task Parameter_class (Some attrs_n) "n").
Proof. vm_compute. reflexivity. Qed.

Lemma args_ok_no_args (w : World) : args_ok no_args w.
Proof. intros d Hd. discriminate Hd. Qed.

Lemma ambient_flow_ok_world0 : ambient_flow_ok world0.
Proof. intros f Hf. discriminate Hf. Qed.

Lemma wf_signature_xyc : wf_signature sig_xyc.
Proof. split; [reflexivity|]. apply (bool_decide_unpack _). by vm_compute. Qed.

Lemma wf_signature_xkw : wf_signature sig_xkw.
Proof. split; [reflexivity|]. apply (bool_decide_unpack _). by vm_compute. Qed.

Lemma ids_issued_world1 : ids_issued uuid_demo world1.
Proof.
  eapply (ids_issued_init uuid_demo _ Task_class None no_args world0).
  - apply args_ok_no_args.
  - apply ambient_flow_ok_world0.
  - apply ids_issued_world0.
  - vm_compute. reflexivity.
Qed.

(** [task(5, 7, c=1)] binds [x], [y] and [c]. *)
Example bind_xyc_5_7_c :
  bind sig_xyc [PInt 5; PInt 7] {["c" := PInt 1]}
  = inr {["x" := BArg (PInt 5); "y" := BArg (PInt 7); "c" := BArg (PInt 1)]}.
Proof. vm_compute. reflexivity. Qed.

(** [task(5)] lacks [y]. *)
Example bind_xyc_5 : bind sig_xyc [PInt 5] ∅ = inl (MissingArgument "y").
Proof. vm_compute. reflexivity. Qed.

(** [task(5, 7, z=9)] has a keyword that names no parameter. *)
Example bind_xyc_5_7_z :
  bind sig_xyc [PInt 5; PInt 7] {["z" := PInt 9]} = inl UnexpectedKeyword.
Proof. vm_compute. reflexivity. Qed.

Lemma no_self_c : ({["c" := PInt 1]} : gmap string pyval) !! "self" = None.
Proof. by vm_compute. Qed.

Lemma no_self_a_kwargs :
  ({["a" := PInt 2; "kwargs" := PInt 9]} : gmap string pyval) !! "self" = None.
Proof. by vm_compute. Qed.

Lemma no_self_empty : (∅ : gmap string pyval) !! "self" = None.
Proof. apply lookup_empty. Qed.

Lemma unbindable_xyc_z : unbindable sig_xyc [PInt 5; PInt 7] {["z" := PInt 9]}.
Proof.
  right. right. split; [reflexivity|]. exists "z". split.
  - exists (PInt 9). vm_compute. reflexivity.
  - intros p Hp _. apply list_elem_of_In in Hp. simpl in Hp.
    destruct Hp as [<-|[<-|[<-|[]]]]; discriminate.
Qed.

Lemma call_unbindable_raises_witness :
  ∃ e, Task_call 0 [PInt 5; PInt 7] {["z" := PInt 9]} world_add
       = Raise e world_add
     ∧ is_binding_error e = true.
Proof.
  exact (call_unbindable_raises 0 (first_task Add_class None "Add") sig_xyc
           [PInt 5; PInt 7] {["z" := PInt 9]} world_add
           world_add_task eq_refl wf_signature_xyc unbindable_xyc_z).
Defined.

Lemma id_assignment_registers_witness :
  ∃ w', Task_id_set 0 "0123456789abcdef" world1 = Ret () w'
      ∧ TASK_REGISTRY w' !! "0123456789abcdef" = Some 0
      ∧ Task_id 0 w' = Ret "0123456789abcdef" w'
      ∧ Task_short_id 0 w' = Ret "01234567" w'
      ∧ (∃ rest, "0123456789abcdef" = "01234567" +:+ rest)
      ∧ String.length "01234567" = 8.
Proof.
  exact (id_assignment_registers 0 "0123456789abcdef"
           (first_task Task_class None "Task") world1 world1_task).
Defined.

(** [task(5, a=2, kwargs=9)] against [run(self, x, **kwargs)]: both
    keywords are captured. *)
Example bind_xkw_captures :
  bind sig_xkw [PInt 5] {["a" := PInt 2; "kwargs" := PInt 9]}
  = inr {["x" := BArg (PInt 5);
          "kwargs" := BKwargs {["a" := PInt 2; "kwargs" := PInt 9]}]}.
Proof. vm_compute. reflexivity. Qed.

Lemma call_flattens_captured_keywords_witness :
  ∃ final flow w',
    expand_var_kw (Some "kwargs")
      {["x" := BArg (PInt 5);
        "kwargs" := BKwargs {["a" := PInt 2; "kwargs" := PInt 9]}]}
    = inr final
    ∧ call_flow world_collect = Ret flow w'
    ∧ Task_call 0 [PInt 5] {["a" := PInt 2; "kwargs" := PInt 9]} world_collect
      = Flow_set_dependencies flow 0 final w'
    ∧ final !! "a" = Some (BArg (PInt 2))
    ∧ final !! "kwargs" = Some (BArg (PInt 9))
    ∧ final !! "x" = Some (BArg (PInt 5)).
Proof.
  destruct (call_flattens_captured_keywords 0
              (first_task Collect_class None "Collect") sig_xkw [PInt 5]
              {["a" := PInt 2; "kwargs" := PInt 9]} _ world_collect
              world_collect_task eq_refl wf_signature_xkw no_self_a_kwargs
              bind_xkw_captures)
    as (final & flow & w' & Hexp & Hflow & Hcall & Hfinal).
  exists final, flow, w'. split; [exact Hexp|]. split; [exact Hflow|].
  split; [exact Hcall|].
  change (get_var_kw_arg sig_xkw) with (Some "kwargs") in Hfinal.
  destruct Hfinal as (_ & Hcap & Hown & Hrest).
  split; [by apply Hcap|]. split; [by apply Hcap|].
  rewrite Hrest; [done..|]. by vm_compute.
Defined.

Lemma call_registers_in_ambient_or_new_flow_witness :
  ∃ w', Task_call 0 [PInt 5; PInt 7] {["c" := PInt 1]} world_add
        = Ret {| tr_task := 0; tr_flow := 0 |} w'
      ∧ flows world_add !! 0 = None
      ∧ flows w' !! 0
        = Some (add_dependencies 0
                  {["x" := BArg (PInt 5); "y" := BArg (PInt 7);
                    "c" := BArg (PInt 1)]} empty_flow)
      ∧ context w' = context world_add.
Proof.
  exact (call_registers_in_ambient_or_new_flow 0
           (first_task Add_class None "Add") sig_xyc [PInt 5; PInt 7]
           {["c" := PInt 1]} _ _ world_add
           world_add_task eq_refl no_self_c bind_xyc_5_7_c eq_refl).
Defined.

(** C4, as stated, fails: a call made while no flow is being built creates
    a flow and registers into it, but the context still has no ambient flow,
    neither when the dependencies are set nor when the call returns. *)
Lemma new_flow_not_made_ambient :
  ctx_flow (context world_add) = None
  ∧ ¬ made_ambient world_add
  ∧ ∃ w', Task_call 0 [PInt 5; PInt 7] {["c" := PInt 1]} world_add
          = Ret {| tr_task := 0; tr_flow := 0 |} w'
        ∧ ctx_flow (context w') = None.
Proof.
  split; [reflexivity|]. split.
  - intros (f & w' & Hflow & Hctx).
    destruct (call_flow_Ret world_add) as (f0 & w0 & Hflow0 & Hcase).
    rewrite Hflow in Hflow0. injection Hflow0 as -> ->.
    change (ctx_flow (context world_add)) with (@None fref) in Hcase.
    destruct Hcase as [_ ->]. discriminate Hctx.
  - eexists. split; [vm_compute; reflexivity|]. reflexivity.
Qed.

Lemma inputs_declared_names_witness :
  Task_inputs 0 world_add = Ret ["x"; "y"; "c"] world_add.
Proof.
  exact (proj1 (inputs_declared_names 0 (first_task Add_class None "Add")
                  self_param sig_xyc world_add world_add_task eq_refl eq_refl)).
Defined.

(** [Parameter("n")] run while the runtime parameters lack [n]. *)
Lemma parameter_run_cases_witness :
  ∃ msg, Parameter_run 0 world_param = Raise (FAIL msg) world_param
       ∧ str_contains msg "n".
Proof.
  exact (parameter_run_cases 0 (first_task Parameter_class (Some attrs_n) "n")
           attrs_n world_param world_param_task eq_refl).
Defined.







Lemma serialize_writes_task_keys_witness :
  ∃ m, Task_serialize (λ _, ∅) 0 world1 = Ret m world1
     ∧ dom m = task_keys
     ∧ m !! "type" = Some (PStr "Task")
     ∧ m !! "prefect_version" = Some (PStr "0.0.1").
Proof.
  destruct (serialize_writes_task_keys uuid_demo (λ _, ∅) 0
              (first_task Task_class None "Task") world1 world1_task)
    as (m & Hser & Hdom & Hty & Hver & _).
  exists m. split; [by apply Hser, world1_task|].
  split; [|by split]. rewrite Hdom, dom_empty_L. apply (right_id_L ∅ (∪)).
Defined.

(** C2, as stated, fails: the mapping of a plain task, with nothing
    contributed by [Serializable], has no key [version]; its ninth key is
    [prefect_version]. *)
Lemma serialize_has_no_version_key :
  ∃ m, Task_serialize (λ _, ∅) 0 world1 = Ret m world1
     ∧ m !! "version" = None
     ∧ is_Some (m !! "prefect_version")
     ∧ dom m ≠ spec_keys.
Proof.
  eexists. split; [vm_compute; reflexivity|].
  split; [by vm_compute|]. split; [by eexists|].
  intros Hdom.
  assert (Hin : "version" ∈ spec_keys) by (by vm_compute).
  rewrite <- Hdom in Hin. apply elem_of_dom in Hin as [v Hv].
  by vm_compute in Hv.
Qed.

Lemma deserialize_serialize_round_trip_witness :
  ∃ m, Task_serialize (λ _, ∅) 0 world1 = Ret m world1
     ∧ ∃ new w2 t2,
         deserialize uuid_demo [Task_class; Parameter_class] m world1
         = Ret new w2
         ∧ heap w2 !! new = Some t2
         ∧ _id t2 = "0"
         ∧ TASK_REGISTRY w2 !! "0" = Some new
         ∧ name t2 = "Task".
Proof.
  destruct (deserialize_serialize_round_trip uuid_demo (λ _, ∅)
              [Task_class; Parameter_class] 0
              (first_task Task_class None "Task") Task_class world1
              world1_task eq_refl)
    as (m & Hser & Hround).
  exists m. split; [exact Hser|].
  destruct (Hround world1)
    as (new & w2 & t2 & Hde & _ & Hheap & Hid & Hreg & _ & Hname & _).
  exists new, w2, t2. by repeat split.
Defined.

(** [Parameter("n", default=5, required=True)] is not required, and run
    without runtime parameters it returns [5]. *)
Example parameter_default_not_required :
  let w := world_after
             (Parameter_init uuid_demo "n" (PInt 5) true world0) world0 in
  (param_attrs <$> heap w !! 0)
  = Some (Some {| required := false; default_value := PInt 5 |})
  ∧ Parameter_run 0 w = Ret (PInt 5) w.
Proof. split; vm_compute; reflexivity. Qed.

(** ** Further statements on sample states *)

Lemma world2_tasks :
  heap world2 !! 0 = Some (first_task Task_class None "Task")
  ∧ heap world2 !! 1 = Some second_task.
Proof. split; vm_compute; reflexivity. Qed.

Lemma too_many_positional_xyc :
  too_many_positional sig_xyc [PInt 1; PInt 2; PInt 3; PInt 4].
Proof.
  exists 3. split; [simpl; lia|]. split; [|done].
  intros [|[|[|j]]] Hj; [by eexists..|lia].
Qed.

Lemma self_keyword :
  is_Some (({["self" := PInt 3]} : gmap string pyval) !! "self").
Proof. exists (PInt 3). by vm_compute. Qed.

(** [task(5, self=3)] against [run(self, x, **kwargs)]. *)
Lemma call_raises_iff_unbindable_witness :
  ∃ e, Task_call 0 [PInt 5] {["self" := PInt 3]} world_collect
       = Raise e world_collect
     ∧ is_binding_error e = true.
Proof.
  exact (proj1 (call_raises_iff_unbindable 0
                  (first_task Collect_class None "Collect") sig_xkw [PInt 5]
                  {["self" := PInt 3]} world_collect
                  world_collect_task eq_refl wf_signature_xkw)
               (or_introl self_keyword)).
Defined.

(** [task(1, 2, 3, 4)] against [run(self, x, y, c=None)]. *)
Example call_too_many_positional :
  Task_call 0 [PInt 1; PInt 2; PInt 3; PInt 4] ∅ world_add
  = Raise (TypeError TooManyPositional) world_add.
Proof. vm_compute. reflexivity. Qed.


Example call_bindings_xyc_5_7 :
  call_bindings sig_xyc [PInt 5; PInt 7] ∅
  = inr {["x" := BArg (PInt 5); "y" := BArg (PInt 7)]}.
Proof. vm_compute. reflexivity. Qed.


(** [task(5, 7)] against [run(self, x, y, c=None)]: no entry for [c]. *)
Lemma call_entries_are_arguments_witness :
  Task_call 0 [PInt 5; PInt 7] ∅ world_add
  = (call_flow ≫= λ flow,
       Flow_set_dependencies flow 0
         {["x" := BArg (PInt 5); "y" := BArg (PInt 7)]}) world_add
  ∧ ({["x" := BArg (PInt 5); "y" := BArg (PInt 7)]} : gmap string bound)
      !! "c" = None.
Proof.
  set (final := ({["x" := BArg (PInt 5); "y" := BArg (PInt 7)]}
                  : gmap string bound)).
  destruct (call_entries_are_arguments 0 (first_task Add_class None "Add")
              sig_xyc [PInt 5; PInt 7] ∅ final world_add
              world_add_task eq_refl wf_signature_xyc call_bindings_xyc_5_7)
    as (Hcall & _ & Homit).
  split; [exact (Hcall no_self_empty)|].
  apply (Homit 2 (Param "c" POSITIONAL_OR_KEYWORD true)); [done|done| |done].
  simpl. lia.
Defined.

Lemma call_labels_are_inputs_witness :
  ∃ inputs, Task_inputs 0 world_add = Ret inputs world_add
    ∧ ∀ k b, ({["x" := BArg (PInt 5); "y" := BArg (PInt 7)]}
               : gmap string bound) !! k = Some b → k ∈ inputs.
Proof.
  exact (call_labels_are_inputs 0 (first_task Add_class None "Add") sig_xyc
           [PInt 5; PInt 7] ∅ _ world_add world_add_task eq_refl
           wf_signature_xyc eq_refl call_bindings_xyc_5_7).
Defined.

(** A plain [Task] called with one argument. *)
Lemma call_without_parameters_witness :
  ∃ e, Task_call 0 [PInt 1] ∅ world1 = Raise e world1
     ∧ is_binding_error e = true.
Proof.
  exact (call_without_parameters 0 (first_task Task_class None "Task")
           [PInt 1] ∅ world1 world1_task eq_refl).
Defined.

Lemma id_assignment_keeps_entries_witness :
  ∃ w', Task_id_set 0 "renamed" world1 = Ret () w'
    ∧ TASK_REGISTRY w' !! "0" = Some 0
    ∧ Task_id 0 w' = Ret "renamed" w'.
Proof.
  destruct (id_assignment_keeps_entries 0 "renamed"
              (first_task Task_class None "Task") world1 world1_task)
    as (w' & Hset & _ & _ & Hstale).
  exists w'. split; [exact Hset|]. apply Hstale; [done|]. by vm_compute.
Defined.

Lemma id_assignment_can_shadow_witness :
  ∃ w', Task_id_set 1 "0" world2 = Ret () w'
    ∧ heap w' !! 0 = Some (first_task Task_class None "Task")
    ∧ heap w' !! 1 = Some (with_id "0" second_task)
    ∧ TASK_REGISTRY w' !! "0" = Some 1.
Proof.
  exact (id_assignment_can_shadow 0 1 (first_task Task_class None "Task")
           second_task world2 (λ H, O_S 0 H) (proj1 world2_tasks)
           (proj2 world2_tasks)).
Defined.

Lemma copy_takes_over_registry_entry_witness :
  ∃ new w', Task_copy uuid_demo 0 world1 = Ret new w'
    ∧ new ≠ 0
    ∧ heap w' !! 0 = Some (first_task Task_class None "Task")
    ∧ TASK_REGISTRY w' !! "0" = Some new
    ∧ TASK_REGISTRY w' !! "1" = Some new.
Proof.
  exact (copy_takes_over_registry_entry uuid_demo 0
           (first_task Task_class None "Task") world1 world1_task).
Defined.

Lemma ids_distinct_world1 : ids_distinct world1.
Proof.
  assert (Hheap : heap world1 = {[0 := first_task Task_class None "Task"]})
    by (by vm_compute).
  intros r1 r2 t1 t2 H1 H2 _. rewrite Hheap in H1, H2.
  apply lookup_singleton_Some in H1 as [<- _].
  by apply lookup_singleton_Some in H2 as [<- _].
Qed.

Lemma construction_and_copy_keep_ids_distinct_witness :
  (∃ self w', Task_init uuid_demo Task_class None no_args world1 = Ret self w'
     ∧ ids_issued uuid_demo w' ∧ ids_distinct w')
  ∧ (∃ new w', Task_copy uuid_demo 0 world1 = Ret new w'
       ∧ ids_issued uuid_demo w' ∧ ids_distinct w').
Proof.
  destruct (construction_and_copy_keep_ids_distinct uuid_demo world1
              pretty_nat_inj ids_issued_world1 ids_distinct_world1)
    as [Hinit Hcopy].
  split.
  - apply Hinit; [apply args_ok_no_args|]. intros f Hf. discriminate Hf.
  - exact (Hcopy 0 _ world1_task).
Defined.

Lemma init_secrets_shared_unless_empty_witness :
  ∃ self w' t,
    Task_init uuid_demo Task_class None args_with_secrets world_dict = Ret self w'
    ∧ heap w' !! self = Some t
    ∧ secrets t = 0
    ∧ dicts w' = dicts world_dict.
Proof.
  destruct (init_secrets_shared_unless_empty uuid_demo Task_class None
              args_with_secrets 0 {["token" := PStr "vault/token"]} world_dict
              eq_refl eq_refl ambient_flow_ok_world0)
    as (self & w' & t & Hinit & Hheap & _ & Hcase).
  exists self, w', t. split; [exact Hinit|]. split; [exact Hheap|].
  rewrite decide_False in Hcase; [exact Hcase|].
  intros Hempty.
  assert (Hl : ({["token" := PStr "vault/token"]} : gmap string pyval)
               !! "token" = None) by (by rewrite Hempty).
  by vm_compute in Hl.
Defined.

Lemma init_name_never_empty_witness :
  ∃ self w' t,
    Task_init uuid_demo Task_class None no_args world0 = Ret self w'
    ∧ heap w' !! self = Some t
    ∧ name t ≠ EmptyString
    ∧ name t = "Task".
Proof.
  exact (init_name_never_empty uuid_demo Task_class None no_args world0
           (args_ok_no_args world0) ambient_flow_ok_world0
           (λ H, eq_ind "Task" (λ s, match s with
                                     | EmptyString => False
                                     | String _ _ => True
                                     end) I EmptyString H)).
Defined.

(** [Parameter("n", default=5, required=True)]. *)
Lemma parameter_default_overrides_required_witness :
  ∃ self w' t,
    Parameter_init uuid_demo "n" (PInt 5) true world0 = Ret self w'
    ∧ heap w' !! self = Some t
    ∧ param_attrs t = Some {| required := false; default_value := PInt 5 |}
    ∧ Parameter_run self w' = Ret (PInt 5) w'.
Proof.
  destruct (parameter_default_overrides_required uuid_demo "n" (PInt 5) true
              world0 ambient_flow_ok_world0)
    as (self & w' & t & Hinit & Hheap & Hattrs & Hrun).
  exists self, w', t. split; [exact Hinit|]. split; [exact Hheap|].
  split; [exact Hattrs|].
  rewrite (Hrun ltac:(discriminate) w' Hheap).
  assert (Hw : w' = world_after
                      (Parameter_init uuid_demo "n" (PInt 5) true world0) world0)
    by (by rewrite Hinit).
  rewrite Hw. by vm_compute.
Defined.

Lemma serialize_overrides_base_witness :
  ∃ m, Task_serialize (λ _, {["id" := PStr "stale"; "args" := PNone]})
         0 world1 = Ret m world1
    ∧ m !! "id" = Some (PStr "0")
    ∧ m !! "args" = Some PNone.
Proof.
  destruct (serialize_overrides_base
              (λ _, {["id" := PStr "stale"; "args" := PNone]}) 0
              (first_task Task_class None "Task") world1 world1_task)
    as (m & Hser & _ & Hid & _ & _ & _ & _ & _ & Hother).
  exists m. split; [exact Hser|]. split; [exact Hid|].
  rewrite Hother; [by vm_compute|]. by vm_compute.
Defined.

Lemma after_deserialize_takes_id_witness :
  ∃ m w', Task_serialize (λ _, ∅) 0 world2 = Ret m world2
    ∧ Task_after_deserialize 1 m world2 = Ret () w'
    ∧ heap w' !! 1 = Some (with_id "0" second_task)
    ∧ heap w' !! 0 = Some (first_task Task_class None "Task")
    ∧ TASK_REGISTRY w' !! "0" = Some 1.
Proof.
  exact (proj2 (after_deserialize_takes_id (λ _, ∅) 1 0 second_task
                  (first_task Task_class None "Task") world2
                  (proj2 world2_tasks) (proj1 world2_tasks)
                  (λ H, O_S 0 (eq_sym H)))).
Defined.

(** [task(5, 7)] twice, with no flow being built. *)
Lemma calls_without_ambient_flow_use_separate_flows_witness :
  ∃ f1 w1 f2 w2,
    Task_call 0 [PInt 5; PInt 7] ∅ world_add
    = Ret {| tr_task := 0; tr_flow := f1 |} w1
    ∧ Task_call 0 [PInt 5; PInt 7] ∅ w1
      = Ret {| tr_task := 0; tr_flow := f2 |} w2
    ∧ f1 ≠ f2
    ∧ flows w2 !! f1
      = Some (add_dependencies 0
                {["x" := BArg (PInt 5); "y" := BArg (PInt 7)]} empty_flow)
    ∧ flows w2 !! f2
      = Some (add_dependencies 0
                {["x" := BArg (PInt 5); "y" := BArg (PInt 7)]} empty_flow).
Proof.
  exact (calls_without_ambient_flow_use_separate_flows 0 0
           (first_task Add_class None "Add") (first_task Add_class None "Add")
           sig_xyc sig_xyc [PInt 5; PInt 7] [PInt 5; PInt 7] ∅ ∅ _ _ world_add
           world_add_task world_add_task eq_refl eq_refl
           no_self_empty no_self_empty
           call_bindings_xyc_5_7 call_bindings_xyc_5_7 eq_refl).
Defined.
